(** * Wing SDK, GCP target: permission bookkeeping and the Bigtable table client

    A shallow embedding of

    - [libs/wingsdk/src/target-tf-gcp/function.ts]: [Function.addPermission]
      and the part of the constructor that applies recorded permissions,
    - the GCP [Table] class (kept in [libs/wingsdk/test/target-tf-gcp/functions.ts],
      after the function test): its constructor, [addRow] and [bind],
    - [libs/wingsdk/src/shared-gcp/table.inflight.ts]: [TableClient],

    followed by the properties of the specification that concern them.

    JavaScript statements become computations in a state-and-exception
    monad.  A [throw] does not roll the state back: what was mutated before
    the throw stays mutated, as in JavaScript. *)

From Stdlib Require Import ZArith Ascii String List Lia.
From stdpp Require Import base option list gmap strings.

Local Open Scope string_scope.
Local Open Scope list_scope.

(** ** Exceptions and the monad *)

(** What a statement can throw.  [JsError msg] is [throw new Error(msg)]
    written in the sources.  [SchemaValidationError] is what row validation
    raises, named as the spec names it and carrying the offending field;
    [UnknownOperationError] and [EmptyOperations] are the rejections the
    spec gives a binding for its operations.  The others are raised by what
    the sources call: [JSON.parse], the construct tree and the Bigtable
    client. *)
Inductive exn : Type :=
| JsError (message : string)
| SchemaValidationError (field : string)
| UnknownOperationError (op : string)
| EmptyOperations
| SyntaxError (text : string)
| DuplicateConstruct (id : string)
| BackendError (what : string).

Inductive Result (A : Type) : Type :=
| Ok (a : A)
| Throw (e : exn).
Arguments Ok {A} a.
Arguments Throw {A} e.

Definition M (S A : Type) : Type := S → Result A * S.

#[global] Instance M_ret {S} : MRet (M S) := λ A a s, (Ok a, s).
#[global] Instance M_bind {S} : MBind (M S) := λ A B f m s,
  match m s with
  | (Ok a, s') => f a s'
  | (Throw e, s') => (Throw e, s')
  end.

Definition throw {S A} (e : exn) : M S A := λ s, (Throw e, s).
Definition gets {S A} (f : S → A) : M S A := λ s, (Ok (f s), s).
Definition modify {S} (f : S → S) : M S unit := λ s, (Ok tt, f s).
Definition lift {S A} (r : Result A) : M S A := λ s, (r, s).

(** [for (const x of xs) body(x)] *)
Fixpoint for_of {S A} (xs : list A) (body : A → M S unit) : M S unit :=
  match xs with
  | [] => mret tt
  | x :: xs' => body x ;; for_of xs' body
  end.

(** ** JavaScript values used by the sources *)

(** [s.substring(start)]: a negative or NaN start counts as 0, one past the
    end counts as the length. *)
Definition js_substring (start : Z) (s : string) : string :=
  let len := String.length s in
  let i := Z.to_nat (Z.min (Z.max 0 start) (Z.of_nat len)) in
  String.substring i (len - i) s.

(** [s.split(sep)[0]]: the characters before the first separator. *)
Fixpoint split_head (sep : ascii) (s : string) : string :=
  match s with
  | EmptyString => EmptyString
  | String c s' => if Ascii.eqb c sep then EmptyString else String c (split_head sep s')
  end.

(** [xs.includes(x)] on an array of strings. *)
Definition includes (xs : list string) (x : string) : bool :=
  existsb (String.eqb x) xs.

#[local] Unset Elimination Schemes.
Inductive Json : Type :=
| JNull
| JBool (b : bool)
| JNumber (z : Z)
| JString (s : string)
| JArray (items : list Json)
| JObject (fields : list (string * Json)).
#[local] Set Elimination Schemes.

(** A plain object: its own enumerable properties in enumeration order
    (what [Object.entries] yields). *)
Abbreviation Obj := (list (string * Json)).

Fixpoint obj_get (f : string) (o : Obj) : option Json :=
  match o with
  | [] => None
  | (g, v) :: o' => if String.eqb f g then Some v else obj_get f o'
  end.

(** [o[f] = v]: an existing property keeps its place, a new one goes last. *)
Fixpoint obj_set (f : string) (v : Json) (o : Obj) : Obj :=
  match o with
  | [] => [(f, v)]
  | (g, w) :: o' => if String.eqb f g then (g, v) :: o' else (g, w) :: obj_set f v o'
  end.

(** The object without property [f]. *)
Fixpoint obj_remove (f : string) (o : Obj) : Obj :=
  match o with
  | [] => []
  | (g, v) :: o' => if String.eqb g f then obj_remove f o' else (g, v) :: obj_remove f o'
  end.

(** [{ ...base, ...src }] / [Object.assign(base, src)]: the properties of
    [src] are written onto [base] in order. *)
Definition obj_assign (base src : Obj) : Obj :=
  foldl (λ o p, obj_set p.1 p.2 o) base src.

(** A [Map<string, V>]: entries in insertion order. *)
Section JsMap.
Context {V : Type}.

Fixpoint Map_get (k : string) (m : list (string * V)) : option V :=
    match m with
    | [] => None
    | (k', v) :: m' => if String.eqb k k' then Some v else Map_get k m'
    end.

Definition Map_has (k : string) (m : list (string * V)) : bool :=
    match Map_get k m with Some _ => true | None => false end.

Fixpoint Map_set (k : string) (v : V) (m : list (string * V)) : list (string * V) :=
    match m with
    | [] => [(k, v)]
    | (k', w) :: m' => if String.eqb k k' then (k', v) :: m' else (k', w) :: Map_set k v m'
    end.

Definition Map_keys (m : list (string * V)) : list string := m.*1.
End JsMap.

(** Objects are known by their identity: two object literals with equal
    fields are two objects.  An object reference carries the identity it got
    when the literal was evaluated together with its (never mutated) fields;
    a [Set] of objects compares identities, as [Set.prototype.has] does. *)
Record Ref (A : Type) : Type := mkRef { ref_id : nat; ref_obj : A }.
Arguments mkRef {A} ref_id ref_obj.
Arguments ref_id {A} r.
Arguments ref_obj {A} r.

Definition Set_has {A} (s : list (Ref A)) (r : Ref A) : bool :=
  existsb (λ r', Nat.eqb (ref_id r') (ref_id r)) s.
Definition Set_add {A} (s : list (Ref A)) (r : Ref A) : list (Ref A) :=
  if Set_has s r then s else s ++ [r].

(** ** [target-tf-gcp/function.ts] *)

Record App : Type := {
  projectId : string;
  storageLocation : string;
  zone : string;
}.

(** [interface ScopedRoleAssignment].  [Table.bind] passes an object without
    [scope], so the field may be undefined. *)
Record ScopedRoleAssignment : Type := {
  scope : option string;
  roleDefinitionName : string;
}.

(** The configuration handed to [new CloudfunctionsFunctionIamPolicy]; the
    [policyData] text is kept as the value it serialises,
    [{ bindings: [{ role, members: [scope] }] }]. *)
Record IamPolicyConfig : Type := {
  project : string;
  region : string;
  cloudFunction : string;
  role : string;
  members : list (option string);
}.

(** The objects a function or a table puts under itself in the construct tree. *)
Inductive Construct : Type :=
| TerraformAsset (path : string)
| StorageBucket (name : string)
| StorageBucketObject (name : string)
| CloudfunctionsFunction (name : string)
| CloudfunctionsFunctionIamPolicy (config : IamPolicyConfig)
| BigtableInstance (name : string) (zone : string)
| BigtableTable (name instanceName : string) (columnFamily : list string) (project : string).

(** [new C(scope, id, ...)]: the construct tree keeps the children of a
    scope by id and refuses an id that is taken. *)
Definition new_construct (id : string) (c : Construct) : M (list (string * Construct)) unit :=
  λ kids, if bool_decide (id ∈ kids.*1) then (Throw (DuplicateConstruct id), kids)
          else (Ok tt, kids ++ [(id, c)]).

(** [resource.node]: all the sources read of a resource is its address. *)
Record IResource : Type := { node_addr : string }.

Module Function.

(** The fields of a [Function] object the sources read and write.
    [function] is unset until the constructor creates the cloud function
    and then holds its name; [children] are the constructs created with the
    function object as scope. *)
Record t : Type := mk {
  app : App;
  function : option string;
  permissions : option (list (string * list (Ref ScopedRoleAssignment)));
  children : list (string * Construct);
}.

Definition set_permissions (p : list (string * list (Ref ScopedRoleAssignment))) (f : t) : t :=
  {| app := app f; function := function f; permissions := Some p; children := children f |}.
Definition set_function (name : string) (f : t) : t :=
  {| app := app f; function := Some name; permissions := permissions f; children := children f |}.
Definition set_children (kids : list (string * Construct)) (f : t) : t :=
  {| app := app f; function := function f; permissions := permissions f; children := kids |}.

(** [new C(this, id, ...)] *)
Definition new_child (id : string) (c : Construct) : M t unit :=
  λ f, let '(r, kids) := new_construct id c (children f) in (r, set_children kids f).

Definition iamPolicy (a : App) (cloudFunction : string) (o : ScopedRoleAssignment) : Construct :=
  CloudfunctionsFunctionIamPolicy
    {| project := projectId a;
       region := storageLocation a;
       cloudFunction := cloudFunction;
       role := roleDefinitionName o;
       members := [scope o] |}.

(** [public addPermission(resource, scopedRoleAssignment): void] *)
Definition addPermission (resource : IResource)
    (scopedRoleAssignment : Ref ScopedRoleAssignment) : M t unit :=
  a ← gets app;
  p0 ← gets permissions;
  (if p0 is None then modify (set_permissions []) else mret tt) ;;
  let uniqueId := js_substring (-8) (node_addr resource) in
  perms ← gets (λ f, default [] (permissions f));
  if Map_has uniqueId perms
     && (if Map_get uniqueId perms is Some s then Set_has s scopedRoleAssignment else false)
  then mret tt (* already exists *)
  else
    fn ← gets function;
    (if fn is Some name then
       new_child ("FunctionIamPolicy-" +:+ uniqueId)
                 (iamPolicy a name (ref_obj scopedRoleAssignment))
     else mret tt) ;;
    let scopedRoleAssignments := default [] (Map_get uniqueId perms) in
    let scopedRoleAssignments := Set_add scopedRoleAssignments scopedRoleAssignment in
    modify (set_permissions (Map_set uniqueId scopedRoleAssignments perms)).

(** The constructor from "Create zip asset" on.  The bundling and the
    files it writes are left out; [functionName], [bucketName], [codeDir]
    and [assetType] are what the naming and bundling helpers returned. *)
Definition constructor_body (functionName bucketName codeDir assetType : string) : M t unit :=
  a ← gets app;
  new_child "Asset" (TerraformAsset codeDir) ;;
  let bucket := bucketName +:+ "-function-code-bucket" in
  new_child "FunctionCodeBucket" (StorageBucket bucket) ;;
  new_child "FunctionCodeBucketObject"
    (StorageBucketObject (bucket +:+ "-function-code-bucket-object" +:+ assetType)) ;;
  new_child functionName (CloudfunctionsFunction functionName) ;;
  modify (set_function functionName) ;;
  new_child "FunctionIamPolicy"
    (CloudfunctionsFunctionIamPolicy
       {| project := projectId a; region := storageLocation a;
          cloudFunction := functionName;
          role := "roles/cloudfunctions.viewer"; members := [Some "allUsers"] |}) ;;
  (* Apply permissions from bound resources *)
  perms ← gets (λ f, default [] (permissions f));
  for_of (Map_keys perms) (λ key,
    for_of (default [] (Map_get key perms)) (λ scopedRoleAssignment,
      new_child ("FunctionIamPolicy-" +:+ key)
                (iamPolicy a functionName (ref_obj scopedRoleAssignment)))).

End Function.

(** ** The GCP [Table] class *)

(** Modelled from the spec: [ex.TableInflightMethods] is declared outside the
    sources at hand; the spec gives the operation vocabulary of a table as
    get, tryGet, list, insert, update, upsert, delete. *)
Module TableInflightMethods.
Definition INSERT : string := "insert".
Definition UPSERT : string := "upsert".
Definition UPDATE : string := "update".
Definition DELETE : string := "delete".
Definition GET : string := "get".
Definition TRYGET : string := "tryGet".
Definition LIST : string := "list".
Definition vocabulary : list string := [GET; TRYGET; LIST; INSERT; UPDATE; UPSERT; DELETE].
End TableInflightMethods.

(** [enum BigtablePermissions] and the string each member stands for. *)
Inductive BigtablePermissions : Type := READ | READWRITE.

Definition BigtablePermissions_value (p : BigtablePermissions) : string :=
  match p with
  | READ => "roles/bigtable.viewer"
  | READWRITE => "roles/bigtable.user"
  end.

#[global] Instance BigtablePermissions_eq_dec : EqDecision BigtablePermissions.
Proof. solve_decision. Defined.

(** What can be handed to [bind] as host: a [tfgcp.Function] object, or an
    object of some other class. *)
Inductive IInflightHost : Type :=
| GCPFunction (f : Function.t)
| OtherHost (className : string).

Record NameOptions : Type := {
  maxLen : nat;
  disallowedRegex : string;
  sep : option string;
  lowercase : bool;
}.

(** [ex.TableProps], as far as the constructor reads it: the declared
    columns (name and metadata) and the rows to seed the table with. *)
Record TableProps : Type := {
  props_columns : option Obj;
  initialRows : option (list (string * Obj));
}.

Module Table.

Definition TABLE_NAME_OPTS : NameOptions :=
  {| maxLen := 22; disallowedRegex := "[a-z0-9\-\.\_]+"; sep := Some "a"; lowercase := false |}.
Definition INSTANCE_NAME_OPTS : NameOptions :=
  {| maxLen := 22; disallowedRegex := "[a-z0-9\-\.\_]+"; sep := Some "a"; lowercase := true |}.

Record t : Type := mk {
  node : IResource;
  columns : Obj;
}.

(** The state [bind] runs in: the counter that numbers the object literals
    evaluated so far, the object passed as [host], and what [super.bind] has
    recorded for this host, by producer address. *)
Record world : Type := mkWorld {
  next_id : nat;
  host : IInflightHost;
  bound : gmap string (gset string);
}.

(** Evaluating an object literal yields a new object. *)
Definition new_object {A} (o : A) : M world (Ref A) :=
  λ w, (Ok (mkRef (next_id w) o),
        {| next_id := S (next_id w); host := host w; bound := bound w |}).

(** A method call on the host object [f], which is put back as changed. *)
Definition on_host {A} (f : Function.t) (m : M Function.t A) : M world A :=
  λ w, let '(r, f') := m f in
       (r, {| next_id := next_id w; host := GCPFunction f'; bound := bound w |}).

(** Modelled from the spec: [super.bind] is [Resource.bind] of the SDK's
    [std] module, outside the sources at hand.  The spec has a binding
    reject an empty operation set, fail with [UnknownOperationError] on an
    operation outside the vocabulary of the producer, and otherwise merge
    its operations into the set already recorded for the (consumer,
    producer) pair. *)
Definition super_bind (this : t) (ops : list string) : M world unit :=
  match ops with
  | [] => throw EmptyOperations
  | _ :: _ =>
      match List.find (λ op, negb (includes TableInflightMethods.vocabulary op)) ops with
      | Some op => throw (UnknownOperationError op)
      | None =>
          modify (λ w,
            let addr := node_addr (node this) in
            {| next_id := next_id w; host := host w;
               bound := <[addr := list_to_set ops ∪ default ∅ (bound w !! addr)]> (bound w) |})
      end
  end.

(** The role [bind] picks for an operation list (the local
    [permissionName]). *)
Definition permissionName (ops : list string) : BigtablePermissions :=
  if includes ops TableInflightMethods.DELETE
     || includes ops TableInflightMethods.UPDATE
     || includes ops TableInflightMethods.UPSERT
  then READWRITE
  else READ.

(** [public bind(host: IInflightHost, ops: string[]): void], with the host
    object held in the state. *)
Definition bind (this : t) (ops : list string) : M world unit :=
  h ← gets host;
  match h with
  | OtherHost _ => throw (JsError "Table can only be bound by tfgcp.Function")
  | GCPFunction f =>
      let permissionName := permissionName ops in
      o ← new_object {| scope := None;
                        roleDefinitionName := BigtablePermissions_value permissionName |};
      on_host f (Function.addPermission (node this) o) ;;
      super_bind this ops
  end.

Section Constructor.
(** The naming service, [ResourceNames.generateName]. *)
Variable generateName : IResource → NameOptions → string.

(** [constructor(scope, id, props)], after [super(scope, id, props)] has
    made the node [n] and kept the columns: the state is the list of
    constructs created with the table as scope. *)
Definition constructor (a : App) (n : IResource) (props : TableProps)
    : M (list (string * Construct)) t :=
  if initialRows props is Some _ then
    throw (JsError "property initialRows is not supported for the GCP target")
  else
    let this := {| node := n; columns := default [] (props_columns props) |} in
    let tableName := generateName n TABLE_NAME_OPTS in
    let instanceName := generateName n INSTANCE_NAME_OPTS in
    let columnsFamily := (columns this).*1 in
    new_construct "Instance" (BigtableInstance instanceName (zone a)) ;;
    new_construct "Default" (BigtableTable tableName instanceName columnsFamily (projectId a)) ;;
    mret this.
End Constructor.

(** [public addRow(_key, _row): void] *)
Definition addRow {S} (_key : string) (_row : Obj) : M S unit :=
  throw (JsError "Method is not supported as a preflight for the GCP target.").

End Table.

(** ** [shared-gcp/table.inflight.ts] *)

(** The Bigtable client library is not part of the repository.  The model
    keeps of it what the table client relies on: a table is a finite map
    from row key to the row's data, and each call of the library is one
    step on that map. *)
Module Bigtable.

Abbreviation Table := (gmap string Obj).

(** [table.row(key).exists()] *)
Definition row_exists (key : string) : M Table bool :=
  gets (λ tbl : Table, bool_decide (is_Some (tbl !! key))).

(** [table.insert(entry)]: the cells of the entry are written to the row
    named by the entry's [key] property. *)
Definition table_insert (entry : Obj) : M Table unit :=
  match obj_get "key" entry with
  | Some (JString k) =>
      modify (λ tbl : Table,
        <[k := obj_assign (default [] (tbl !! k)) (obj_remove "key" entry)]> tbl)
  | _ => throw (BackendError "entry without a row key")
  end.

(** [table.row(key).save(family, value)] *)
Definition row_save (key family : string) (value : Json) : M Table unit :=
  modify (λ tbl : Table, <[key := obj_set family value (default [] (tbl !! key))]> tbl).

(** [table.row(key).delete()] *)
Definition row_delete (key : string) : M Table unit :=
  modify (λ tbl : Table, base.delete key tbl).

(** [table.row(key).get()], then [.data] of the row it yields *)
Definition row_get_data (key : string) : M Table Obj :=
  λ tbl, match tbl !! key with
         | Some d => (Ok d, tbl)
         | None => (Throw (BackendError "unknown row"), tbl)
         end.

(** [table.getRows()], then [.data] of each *)
Definition getRows_data : M Table (list Obj) :=
  gets (λ tbl : Table, (map_to_list tbl).*2).

End Bigtable.

Module TableClient.

(** The fields the constructor is given.  The constructor also starts
    [validateTable()] without awaiting it: a rejection there reaches none
    of the methods. *)
Record t : Type := mk {
  tableName : string;
  instanceId : string;
  columns : string;
}.


Definition alreadyExists (key : string) : exn :=
  JsError ("Row with key=" +:+ key +:+ " already exists in the table").
Definition doesNotExist (key : string) : exn :=
  JsError ("Row with key=" +:+ key +:+ " does not exist in the table").

Section Methods.
(** [JSON.parse] on the column schema text, and [validateRow] of
    [shared/table-utils]: both are taken as given here. *)
Variable JSON_parse : string → Result Obj.
Variable validateRow : Obj → Obj → Result unit.
Variable this : t.
(** [Json.parse] and [Json.stringify] of the SDK's [std] module are outside
    the sources at hand and are taken as given too.  [Json_parse] is applied
    to the JavaScript value the source hands to [Json.parse]: a string in
    [tryGet], the data object of the row itself in [get] and [list]. *)
Variable Json_parse : Json → Result Json.
Variable Json_stringify : Json → string.

Definition validate (row : Obj) : M Bigtable.Table unit :=
  cols ← lift (JSON_parse (columns this));
  lift (validateRow row cols).

Definition insert (key : string) (row : Obj) : M Bigtable.Table unit :=
  validate row ;;
  let insertRow := obj_assign [("key", JString key)] row in
  exists_ ← Bigtable.row_exists key;
  if exists_ : bool then throw (alreadyExists key)
  else Bigtable.table_insert insertRow.

Definition update (key : string) (row : Obj) : M Bigtable.Table unit :=
  validate row ;;
  exists_ ← Bigtable.row_exists key;
  if negb exists_ then throw (doesNotExist key)
  else
    for_of row (λ '(column, value),
      let family := split_head ":" column in
      Bigtable.row_save key family value).

Definition upsert (key : string) (row : Obj) : M Bigtable.Table unit :=
  validate row ;;
  exists_ ← Bigtable.row_exists key;
  if exists_ : bool then update key row
  else insert key row.

Definition delete (key : string) : M Bigtable.Table unit :=
  exists_ ← Bigtable.row_exists key;
  if negb exists_ then throw (doesNotExist key)
  else Bigtable.row_delete key.

Definition get (key : string) : M Bigtable.Table Json :=
  exists_ ← Bigtable.row_exists key;
  if negb exists_ then throw (doesNotExist key)
  else
    data ← Bigtable.row_get_data key;
    lift (Json_parse (JObject data)).

(** [undefined] is [None]. *)
Definition tryGet (key : string) : M Bigtable.Table (option Json) :=
  exists_ ← Bigtable.row_exists key;
  if negb exists_ then mret None
  else
    data ← Bigtable.row_get_data key;
    j ← lift (Json_parse (JString (Json_stringify (JObject data))));
    mret (Some j).

(** [rows.forEach((row) => jsonRows.push(Json.parse(row.data)))] *)
Fixpoint parse_each (rows : list Obj) : M Bigtable.Table (list Json) :=
  match rows with
  | [] => mret []
  | data :: rows' =>
      j ← lift (Json_parse (JObject data));
      jsonRows ← parse_each rows';
      mret (j :: jsonRows)
  end.

Definition list_ : M Bigtable.Table (list Json) :=
  rows ← Bigtable.getRows_data;
  parse_each rows.

End Methods.
End TableClient.

(** Modelled from the spec: [validateRow] of [shared/table-utils] is outside
    the sources at hand.  The spec has every written row validate against
    the column schema, and a write of an undeclared field fail with an error
    that names the field. *)
Fixpoint validateRow (row columns : Obj) : Result unit :=
  match row with
  | [] => Ok tt
  | (field, _) :: row' =>
      if obj_get field columns is Some _ then validateRow row' columns
      else Throw (SchemaValidationError field)
  end.

(** ** What the properties below observe *)

(** The key [addPermission] files a resource under. *)
Definition uniqueId (resource : IResource) : string :=
  js_substring (-8) (node_addr resource).

(** The grants a function object holds for a producer. *)
Definition granted (f : Function.t) (resource : IResource) : list (Ref ScopedRoleAssignment) :=
  default [] (Map_get (uniqueId resource) (default [] (Function.permissions f))).

(** The grants the host of a world holds for a table. *)
Definition grants (this : Table.t) (w : Table.world) : list (Ref ScopedRoleAssignment) :=
  match Table.host w with
  | GCPFunction f => granted f (Table.node this)
  | OtherHost _ => []
  end.

Definition roles (gs : list (Ref ScopedRoleAssignment)) : list string :=
  (λ r, roleDefinitionName (ref_obj r)) <$> gs.

(** Every object the host holds was made before the counter's present
    value: the next object literal is a new object. *)
Definition fresh_ids (w : Table.world) : Prop :=
  ∀ f key s r,
    Table.host w = GCPFunction f →
    Map_get key (default [] (Function.permissions f)) = Some s →
    r ∈ s → ref_id r < Table.next_id w.

(** The grant [bind] makes for an operation list in world [w]. *)
Definition grant_of (ops : list string) (w : Table.world) : Ref ScopedRoleAssignment :=
  mkRef (Table.next_id w)
        {| scope := None;
           roleDefinitionName := BigtablePermissions_value (Table.permissionName ops) |}.

(** The operation lists [super.bind] lets through: not empty, and of
    operations of the vocabulary. *)
Definition accepted (ops : list string) : bool :=
  match ops with
  | [] => false
  | _ :: _ => forallb (includes TableInflightMethods.vocabulary) ops
  end.

(** What [super.bind] leaves recorded after a binding of [ops]. *)
Definition bound_after (this : Table.t) (ops : list string) (w : Table.world)
    : gmap string (gset string) :=
  let addr := node_addr (Table.node this) in
  <[addr := list_to_set ops ∪ default ∅ (Table.bound w !! addr)]> (Table.bound w).

(** The data of a row after the loop of [update] has saved the fields of
    [row] onto [data]. *)
Definition saved (row data : Obj) : Obj :=
  foldl (λ o p, obj_set (split_head ":" p.1) p.2 o) data row.

(** ** A small application, for the examples *)

Module Example.

Definition app : App :=
  {| projectId := "my-project"; storageLocation := "US"; zone := "us-central1-a" |}.

(** A table [users] and a function [handler] that uses it. *)
Definition users : Table.t :=
  {| Table.node := {| node_addr := "c8e9a1f0b2d34c5e6f708192a3b4c5d6e7f8091a2b" |};
     Table.columns := [("col", JString "string")] |}.

(** The function object while [super(...)] of its constructor runs: the
    cloud function does not exist yet. *)
Definition handler_unbuilt : Function.t :=
  {| Function.app := app; Function.function := None;
     Function.permissions := None; Function.children := [] |}.

(** The function object once its constructor has run. *)
Definition handler_built : Function.t :=
  (Function.constructor_body "handler" "handler" "/tmp/bundle" ".zip" handler_unbuilt).2.

Definition world_unbuilt : Table.world :=
  {| Table.next_id := 0; Table.host := GCPFunction handler_unbuilt; Table.bound := ∅ |}.
Definition world_built : Table.world :=
  {| Table.next_id := 0; Table.host := GCPFunction handler_built; Table.bound := ∅ |}.

(** A world whose host is no [tfgcp.Function]. *)
Definition world_other : Table.world :=
  {| Table.next_id := 0; Table.host := OtherHost "Queue"; Table.bound := ∅ |}.

Definition viewer (id : nat) : Ref ScopedRoleAssignment :=
  mkRef id {| scope := None; roleDefinitionName := "roles/bigtable.viewer" |}.
Definition user (id : nat) : Ref ScopedRoleAssignment :=
  mkRef id {| scope := None; roleDefinitionName := "roles/bigtable.user" |}.

(** The table client of [users].  Its column schema arrives as text; the
    two texts used below are read as [JSON.parse] reads them and any other
    text is refused. *)
Definition schema_col : Obj := [("col", JString "string")].
Definition schema_wide : Obj :=
  [("col", JString "string"); ("a:b", JString "number"); ("key", JString "string")].

Definition client (columns : string) : TableClient.t :=
  {| TableClient.tableName := "users"; TableClient.instanceId := "users-instance";
     TableClient.columns := columns |}.

Definition quoted (s : string) : string :=
  String (ascii_of_nat 34) (s +:+ String (ascii_of_nat 34) EmptyString).
Definition text_col : string :=
  "{" +:+ quoted "col" +:+ ":" +:+ quoted "string" +:+ "}".
Definition text_wide : string :=
  "{" +:+ quoted "col" +:+ ":" +:+ quoted "string" +:+ ","
      +:+ quoted "a:b" +:+ ":" +:+ quoted "number" +:+ ","
      +:+ quoted "key" +:+ ":" +:+ quoted "string" +:+ "}".

Definition JSON_parse (text : string) : Result Obj :=
  if String.eqb text text_col then Ok schema_col
  else if String.eqb text text_wide then Ok schema_wide
  else Throw (SyntaxError text).

Definition narrow : TableClient.t := client text_col.
Definition wide : TableClient.t := client text_wide.

Definition insert := TableClient.insert JSON_parse validateRow.
Definition update := TableClient.update JSON_parse validateRow.
Definition upsert := TableClient.upsert JSON_parse validateRow.

(** [Json.stringify] and [Json.parse] for the examples.  The text of a row
    is that of [JSON.stringify] for rows of string fields.  [Json_parse]
    reads a text back when it is the text of one of the rows the examples
    read; a value that is no string is first turned into one, as
    JavaScript does for an argument of [JSON.parse], and the string an
    object gives is no JSON text. *)
Definition print_value (v : Json) : string :=
  match v with
  | JString s => quoted s
  | JBool true => "true"
  | JBool false => "false"
  | _ => "null"
  end.

Fixpoint print_fields (o : Obj) : string :=
  match o with
  | [] => ""
  | [(f, v)] => quoted f +:+ ":" +:+ print_value v
  | (f, v) :: (_ :: _) as o' => quoted f +:+ ":" +:+ print_value v +:+ "," +:+ print_fields o'
  end.

Definition Json_stringify (j : Json) : string :=
  match j with
  | JObject o => "{" +:+ print_fields o +:+ "}"
  | _ => print_value j
  end.

Definition known_rows : list Json :=
  [JObject [("col", JString "a")];
   JObject [("col", JString "b")];
   JObject [("col", JString "a"); ("a", JString "x")];
   JObject [("col", JString "a"); ("key", JString "k")];
   JObject [("a:b", JString "x")]].

Definition Json_parse (v : Json) : Result Json :=
  match v with
  | JString text =>
      match List.find (λ j, String.eqb (Json_stringify j) text) known_rows with
      | Some j => Ok j
      | None => Throw (SyntaxError text)
      end
  | JObject _ => Throw (SyntaxError "[object Object]")
  | _ => Throw (SyntaxError (print_value v))
  end.

Definition get := TableClient.get Json_parse.
Definition tryGet := TableClient.tryGet Json_parse Json_stringify.

(** A naming service for the examples: the address, cut to the length
    the options allow. *)
Definition generateName (n : IResource) (opts : NameOptions) : string :=
  String.substring 0 (maxLen opts) (node_addr n).

(** A table that holds one row. *)
Definition one_row : Bigtable.Table := {[ "row1" := [("col", JString "a")] ]}.

End Example.

(** ** Names of the environment variables *)

(** [s.slice(start)]: a negative start counts from the end, and no further
    back than the beginning. *)
Definition js_slice (start : Z) (s : string) : string :=
  let len := String.length s in
  let i := Z.to_nat (if (start <? 0)%Z then Z.max (Z.of_nat len + start) 0
                     else Z.min start (Z.of_nat len)) in
  String.substring i (len - i) s.

Module FunctionEnv.
(** [private envName(): string] of [Function] *)
Definition envName (node : IResource) : string :=
  "FUNCTION_NAME_" +:+ js_slice (-8) (node_addr node).
End FunctionEnv.

Module TableEnv.
(** [private envName(): string] of [Table] *)
Definition envName (this : Table.t) : string :=
  "BIGTABLE_TABLE_NAME_" +:+ js_slice (-8) (node_addr (Table.node this)).

(** [private primaryKeyEnvName(): string] *)
Definition primaryKeyEnvName (this : Table.t) : string :=
  envName this +:+ "_PRIMARY_KEY".

(** [private columnsEnvName(): string] *)
Definition columnsEnvName (this : Table.t) : string :=
  envName this +:+ "_COLUMNS".
End TableEnv.

(** ** Further observations *)

(** The id of the policy construct [addPermission] and the constructor
    make for a key. *)
Definition policyId (key : string) : string := "FunctionIamPolicy-" +:+ key.

(** The policy constructs the constructor makes from the recorded
    permissions, in the order of the map and of each set. *)
Definition policies (a : App) (functionName : string)
    (perms : list (string * list (Ref ScopedRoleAssignment))) : list (string * Construct) :=
  flat_map (λ kv, (λ r, (policyId kv.1, Function.iamPolicy a functionName (ref_obj r))) <$> kv.2)
           perms.

(** The constructs the constructor makes before it turns to the
    permissions. *)
Definition fixed_children (a : App) (functionName bucketName codeDir assetType : string)
    : list (string * Construct) :=
  [("Asset", TerraformAsset codeDir);
   ("FunctionCodeBucket", StorageBucket (bucketName +:+ "-function-code-bucket"));
   ("FunctionCodeBucketObject",
    StorageBucketObject ((bucketName +:+ "-function-code-bucket")
                         +:+ "-function-code-bucket-object" +:+ assetType));
   (functionName, CloudfunctionsFunction functionName);
   ("FunctionIamPolicy",
    CloudfunctionsFunctionIamPolicy
      {| project := projectId a; region := storageLocation a;
         cloudFunction := functionName;
         role := "roles/cloudfunctions.viewer"; members := [Some "allUsers"] |})].

(** What [FUNCTION_NAME_OPTS] leaves of a name: lowercase letters and
    digits ([disallowedRegex: /[^a-z0-9]+/g], [case: LOWERCASE]). *)
Definition is_lower_alnum (c : ascii) : bool :=
  let n := nat_of_ascii c in
  (Nat.leb 97 n && Nat.leb n 122) || (Nat.leb 48 n && Nat.leb n 57).

Fixpoint lower_alnum (s : string) : bool :=
  match s with
  | EmptyString => true
  | String c s' => is_lower_alnum c && lower_alnum s'
  end.

(** The value [update] leaves in field [f]: that of the last field of the
    row whose name, up to the first colon, is [f]. *)
Definition family_value (f : string) (row : Obj) : option Json :=
  foldl (λ acc p, if String.eqb (split_head ":" p.1) f then Some p.2 else acc) None row.

(** More of the example application. *)
Module Example2.

(** A second table. *)
Definition orders : Table.t :=
  {| Table.node := {| node_addr := "c8774d1a0c5e4f2b9a8d7c6b5a49382716f5e4d3c2" |};
     Table.columns := [("col", JString "string")] |}.

(** A table that holds two rows. *)
Definition two_rows : Bigtable.Table :=
  {[ "row1" := [("col", JString "a")]; "row2" := [("col", JString "b")] ]}.

End Example2.

(** ** Lemmas on the JavaScript values *)

Lemma substring_all (s : string) : String.substring 0 (String.length s) s = s.
Proof. induction s as [|c s IH]; simpl; [done | by rewrite IH]. Qed.

Lemma js_substring_nonpos (start : Z) (s : string) :
  (start ≤ 0)%Z → js_substring start s = s.
Proof.
  intros Hs. unfold js_substring.
  replace (Z.to_nat (Z.min (Z.max 0 start) (Z.of_nat (String.length s)))) with 0 by lia.
  rewrite Nat.sub_0_r. apply substring_all.
Qed.

Lemma uniqueId_addr (resource : IResource) : uniqueId resource = node_addr resource.
Proof. by apply js_substring_nonpos. Qed.

Lemma String_eqb_decide (a b : string) : String.eqb a b = bool_decide (a = b).
Proof.
  destruct (String.eqb_spec a b) as [->|Hne].
  - by rewrite bool_decide_eq_true_2.
  - by rewrite bool_decide_eq_false_2.
Qed.

Lemma includes_In (xs : list string) (x : string) :
  includes xs x = true ↔ x ∈ xs.
Proof.
  unfold includes. rewrite existsb_exists. split.
  - intros (y & Hy & Heq). apply String.eqb_eq in Heq. subst. by apply list_elem_of_In.
  - intros Hin. exists x. split; [by apply list_elem_of_In | apply String.eqb_refl].
Qed.

Section MapLemmas.
Context {V : Type}.
Implicit Types (m : list (string * V)) (k : string) (v : V).

Lemma Map_get_set_eq m k v : Map_get k (Map_set k v m) = Some v.
Proof.
  induction m as [|[k' w] m IH]; simpl.
  - by rewrite String.eqb_refl.
  - destruct (String.eqb k k') eqn:E; simpl; rewrite E; [done | apply IH].
Qed.

Lemma Map_get_set_ne m k k' v : k' ≠ k → Map_get k' (Map_set k v m) = Map_get k' m.
Proof.
  intros Hne. induction m as [|[k0 w] m IH]; simpl.
  - by apply String.eqb_neq in Hne as ->.
  - destruct (String.eqb k k0) eqn:E; simpl.
    + apply String.eqb_eq in E. subst k0. by apply String.eqb_neq in Hne as ->.
    + by rewrite IH.
Qed.

Lemma Map_get_set m k k' v :
  Map_get k' (Map_set k v m) = if decide (k' = k) then Some v else Map_get k' m.
Proof.
  destruct (decide (k' = k)) as [->|Hne];
    [apply Map_get_set_eq | by apply Map_get_set_ne].
Qed.
End MapLemmas.

Lemma Set_has_false_fresh {A} (s : list (Ref A)) (r : Ref A) :
  (∀ r', r' ∈ s → ref_id r' < ref_id r) → Set_has s r = false.
Proof.
  intros Hlt. unfold Set_has. apply not_true_is_false. rewrite existsb_exists.
  intros (r' & Hin & Heq). apply list_elem_of_In, Hlt in Hin.
  apply Nat.eqb_eq in Heq. lia.
Qed.

Lemma Set_has_true_elem {A} (s : list (Ref A)) (r : Ref A) :
  r ∈ s → Set_has s r = true.
Proof.
  intros Hin. unfold Set_has. rewrite existsb_exists. exists r.
  split; [by apply list_elem_of_In | apply Nat.eqb_refl].
Qed.

(** ** Lemmas on [addPermission] and [bind] *)

Lemma addPermission_new (resource : IResource) (r : Ref ScopedRoleAssignment) (f : Function.t) :
  Set_has (granted f resource) r = false →
  Function.addPermission resource r f =
    let perms := default [] (Function.permissions f) in
    let recorded := Function.set_permissions (Map_set (uniqueId resource) (granted f resource ++ [r]) perms) in
    match Function.function f with
    | None => (Ok tt, recorded f)
    | Some name =>
        let id := "FunctionIamPolicy-" +:+ uniqueId resource in
        if bool_decide (id ∈ (Function.children f).*1)
        then (Throw (DuplicateConstruct id), Function.set_permissions perms f)
        else (Ok tt, recorded (Function.set_children
               (Function.children f ++ [(id, Function.iamPolicy (Function.app f) name (ref_obj r))]) f))
    end.
Proof.
  intros Hfresh. unfold granted in *. destruct f as [a fn [perms|] kids]; simpl in *.
  - unfold Function.addPermission, mbind, M_bind, gets, modify, mret, M_ret; simpl.
    fold (uniqueId resource).
    unfold Map_has. destruct (Map_get (uniqueId resource) perms) as [s|] eqn:E; simpl in *.
    + rewrite Hfresh. simpl. unfold Set_add. rewrite Hfresh.
      destruct fn as [name|]; simpl; [|done].
      unfold Function.new_child, new_construct; simpl.
      case_bool_decide; simpl; done.
    + destruct fn as [name|]; simpl; [|done].
      unfold Function.new_child, new_construct; simpl.
      case_bool_decide; simpl; done.
  - unfold Function.addPermission, mbind, M_bind, gets, modify, mret, M_ret; simpl.
    fold (uniqueId resource).
      destruct fn as [name|]; simpl; [|done].
      unfold Function.new_child, new_construct; simpl.
      case_bool_decide; simpl; done.
Qed.

Lemma addPermission_held (resource : IResource) (r : Ref ScopedRoleAssignment) (f : Function.t) :
  Set_has (granted f resource) r = true →
  Function.addPermission resource r f =
    (Ok tt, Function.set_permissions (default [] (Function.permissions f)) f).
Proof.
  intros Hheld. unfold granted in *. destruct f as [a fn [perms|] kids]; simpl in *.
  - unfold Function.addPermission, mbind, M_bind, gets, modify, mret, M_ret; simpl.
    fold (uniqueId resource).
    unfold Map_has. destruct (Map_get (uniqueId resource) perms) as [s|] eqn:E; simpl in *.
    + by rewrite Hheld.
    + discriminate.
  - discriminate.
Qed.

Lemma bind_other (this : Table.t) (ops : list string) (w : Table.world) (c : string) :
  Table.host w = OtherHost c →
  Table.bind this ops w = (Throw (JsError "Table can only be bound by tfgcp.Function"), w).
Proof.
  intros Hh. unfold Table.bind, mbind, M_bind, gets; simpl. by rewrite Hh.
Qed.

Lemma find_forallb {A} (p : A → bool) (l : list A) :
  forallb p l = true → List.find (λ x, negb (p x)) l = None.
Proof.
  induction l as [|x l IH]; simpl; [done|].
  intros [Hx Hl]%andb_true_iff. rewrite Hx. simpl. by apply IH.
Qed.

Lemma find_not_forallb {A} (p : A → bool) (l : list A) :
  forallb p l = false → ∃ x, List.find (λ x, negb (p x)) l = Some x.
Proof.
  induction l as [|x l IH]; simpl; [done|].
  destruct (p x); simpl; [apply IH | eauto].
Qed.

Lemma super_bind_accepted (this : Table.t) (ops : list string) (w : Table.world) :
  accepted ops = true →
  Table.super_bind this ops w
  = (Ok tt, {| Table.next_id := Table.next_id w; Table.host := Table.host w;
               Table.bound := bound_after this ops w |}).
Proof.
  intros Hacc. unfold Table.super_bind. destruct ops as [|op ops]; [discriminate|].
  unfold accepted in Hacc. by rewrite find_forallb.
Qed.

Lemma super_bind_refused (this : Table.t) (ops : list string) (w : Table.world) :
  accepted ops = false → ∃ e, Table.super_bind this ops w = (Throw e, w).
Proof.
  intros Hacc. unfold Table.super_bind. destruct ops as [|op ops]; [by eexists|].
  unfold accepted in Hacc. destruct (find_not_forallb _ _ Hacc) as [x ->]. by eexists.
Qed.

Lemma super_bind_host (this : Table.t) (ops : list string) (w : Table.world) :
  Table.host (Table.super_bind this ops w).2 = Table.host w
  ∧ Table.next_id (Table.super_bind this ops w).2 = Table.next_id w.
Proof.
  destruct (accepted ops) eqn:E.
  - by rewrite super_bind_accepted.
  - destruct (super_bind_refused this ops w E) as [e ->]. done.
Qed.

Lemma bind_function (this : Table.t) (ops : list string) (w : Table.world) (f : Function.t) :
  Table.host w = GCPFunction f →
  Table.bind this ops w =
    match Function.addPermission (Table.node this) (grant_of ops w) f with
    | (Ok _, f') =>
        Table.super_bind this ops
          {| Table.next_id := S (Table.next_id w); Table.host := GCPFunction f';
             Table.bound := Table.bound w |}
    | (Throw e, f') =>
        (Throw e, {| Table.next_id := S (Table.next_id w); Table.host := GCPFunction f';
                     Table.bound := Table.bound w |})
    end.
Proof.
  intros Hh. unfold Table.bind, mbind, M_bind, gets; simpl. rewrite Hh.
  unfold Table.new_object, Table.on_host; simpl. fold (grant_of ops w).
  destruct (Function.addPermission _ _ f) as [[[]|e] f']; simpl; done.
Qed.

(** The host after a binding is the host after [addPermission]: what
    [super.bind] does afterwards does not reach it. *)
Lemma bind_host (this : Table.t) (ops : list string) (w : Table.world) (f : Function.t) :
  Table.host w = GCPFunction f →
  Table.host (Table.bind this ops w).2
  = GCPFunction (Function.addPermission (Table.node this) (grant_of ops w) f).2.
Proof.
  intros Hh. rewrite (bind_function _ _ _ _ Hh).
  destruct (Function.addPermission _ _ f) as [[[]|e] f']; simpl; [|done].
  by rewrite (proj1 (super_bind_host _ _ _)).
Qed.

Lemma grant_of_fresh (this : Table.t) (ops : list string) (w : Table.world) (f : Function.t) :
  Table.host w = GCPFunction f → fresh_ids w →
  Set_has (granted f (Table.node this)) (grant_of ops w) = false.
Proof.
  intros Hh Hfresh. apply Set_has_false_fresh. intros r' Hin. simpl.
  unfold granted in Hin.
  destruct (Map_get _ _) as [s|] eqn:E; simpl in Hin; [|by apply elem_of_nil in Hin].
  by eapply Hfresh.
Qed.

Lemma granted_recorded (f : Function.t) (resource : IResource) s perms :
  granted (Function.set_permissions (Map_set (uniqueId resource) s perms) f) resource = s.
Proof. unfold granted. simpl. by rewrite Map_get_set_eq. Qed.

Lemma fresh_ids_recorded (this : Table.t) (ops : list string) (w : Table.world)
    (f g : Function.t) (b : gmap string (gset string)) :
  Table.host w = GCPFunction f → fresh_ids w →
  fresh_ids {| Table.next_id := S (Table.next_id w);
               Table.host := GCPFunction (Function.set_permissions
                 (Map_set (uniqueId (Table.node this))
                          (granted f (Table.node this) ++ [grant_of ops w])
                          (default [] (Function.permissions f))) g);
               Table.bound := b |}.
Proof.
  intros Hh Hfresh f' key s r [= <-] Hget Hin. simpl in *.
  rewrite Map_get_set in Hget. case_decide as Hk.
  - injection Hget as <-. apply elem_of_app in Hin as [Hin|Hin].
    + unfold granted in Hin.
      destruct (Map_get _ _) as [s|] eqn:E; simpl in Hin; [|by apply elem_of_nil in Hin].
      specialize (Hfresh f _ s r Hh E Hin). lia.
    + apply list_elem_of_singleton in Hin as ->. simpl. lia.
  - specialize (Hfresh f _ s r Hh Hget Hin). lia.
Qed.

Lemma fresh_ids_kept (w : Table.world) (f : Function.t) (b : gmap string (gset string)) :
  Table.host w = GCPFunction f → fresh_ids w →
  fresh_ids {| Table.next_id := S (Table.next_id w);
               Table.host := GCPFunction (Function.set_permissions
                 (default [] (Function.permissions f)) f);
               Table.bound := b |}.
Proof.
  intros Hh Hfresh f' key s r [= <-] Hget Hin. simpl in *.
  specialize (Hfresh f _ s r Hh Hget Hin). lia.
Qed.

Lemma bind_Ok (this : Table.t) (ops : list string) (w w' : Table.world) :
  fresh_ids w → Table.bind this ops w = (Ok tt, w') →
  grants this w' = grants this w ++ [grant_of ops w] ∧ fresh_ids w'.
Proof.
  intros Hfresh Hb. destruct (Table.host w) as [f|c] eqn:Hh.
  - rewrite (bind_function _ _ _ _ Hh) in Hb.
    rewrite addPermission_new in Hb by by eapply grant_of_fresh.
    assert (accepted ops = true) as Hacc.
    { destruct (accepted ops) eqn:E; [done|]. exfalso. simpl in Hb.
      destruct (Function.function f) as [name|]; [case_bool_decide; [discriminate|]|];
        match type of Hb with Table.super_bind ?t ?o ?v = _ =>
          destruct (super_bind_refused t o v E) as [e He]; rewrite He in Hb end;
        discriminate. }
    unfold grants. rewrite Hh. simpl in Hb.
    destruct (Function.function f) as [name|].
    + case_bool_decide; [discriminate|]. rewrite super_bind_accepted in Hb by done.
      injection Hb as <-. simpl.
      split; [apply granted_recorded | by apply fresh_ids_recorded].
    + rewrite super_bind_accepted in Hb by done. injection Hb as <-. simpl.
      split; [apply granted_recorded | by apply fresh_ids_recorded].
  - rewrite (bind_other _ _ _ _ Hh) in Hb. discriminate.
Qed.

Lemma bind_unbuilt (this : Table.t) (ops : list string) (w : Table.world) (f : Function.t) :
  Table.host w = GCPFunction f → Function.function f = None → accepted ops = true →
  ∃ f', Table.bind this ops w =
          (Ok tt, {| Table.next_id := S (Table.next_id w); Table.host := GCPFunction f';
                     Table.bound := bound_after this ops w |})
        ∧ Function.function f' = None.
Proof.
  intros Hh Hfn Hacc. rewrite (bind_function _ _ _ _ Hh).
  destruct (Set_has (granted f (Table.node this)) (grant_of ops w)) eqn:E.
  - rewrite addPermission_held by done. rewrite super_bind_accepted by done.
    eexists; split; [done|]. done.
  - rewrite addPermission_new by done. simpl. rewrite Hfn.
    rewrite super_bind_accepted by done. eexists; split; [done|]. done.
Qed.

(** ** Lemmas on objects and on the table client *)

Lemma obj_get_set (f g : string) (v : Json) (o : Obj) :
  obj_get f (obj_set g v o) = if decide (f = g) then Some v else obj_get f o.
Proof.
  induction o as [|[h w] o IH]; simpl.
  - rewrite String_eqb_decide. by case_bool_decide; case_decide.
  - rewrite !String_eqb_decide.
    destruct (bool_decide (g = h)) eqn:E1; simpl; rewrite !String_eqb_decide.
    + apply bool_decide_eq_true in E1 as <-.
      case_decide as E2; [subst; by rewrite bool_decide_eq_true_2 | by rewrite bool_decide_eq_false_2].
    + apply bool_decide_eq_false in E1.
      case_bool_decide as E3; [subst h; by rewrite decide_False by congruence | apply IH].
Qed.

Lemma obj_set_notin (f : string) (v : Json) (o : Obj) :
  f ∉ o.*1 → obj_set f v o = o ++ [(f, v)].
Proof.
  induction o as [|[h w] o IH]; simpl; [done|].
  intros Hnin. apply not_elem_of_cons in Hnin as [Hne Hnin].
  apply String.eqb_neq in Hne as ->. by rewrite IH.
Qed.

Lemma obj_assign_disjoint (base src : Obj) :
  NoDup (base ++ src).*1 → obj_assign base src = base ++ src.
Proof.
  revert base. induction src as [|[f v] src IH]; intros base Hnd; simpl.
  - by rewrite app_nil_r.
  - unfold obj_assign in *. simpl.
    rewrite fmap_app in Hnd. simpl in Hnd.
    assert (f ∉ base.*1) as Hf.
    { apply NoDup_app in Hnd as (_ & Hdisj & _). intros Hin. apply (Hdisj _ Hin). left. }
    rewrite obj_set_notin by done. rewrite IH; [by rewrite <- app_assoc|].
    rewrite <- app_assoc. simpl. rewrite fmap_app. done.
Qed.

Lemma obj_set_fields (f : string) (v : Json) (o : Obj) :
  (obj_set f v o).*1 = if bool_decide (f ∈ o.*1) then o.*1 else o.*1 ++ [f].
Proof.
  induction o as [|[h w] o IH]; [done|].
  cbn [obj_set]. destruct (String.eqb_spec f h) as [->|E]; rewrite !fmap_cons; cbn [fst].
  - rewrite bool_decide_eq_true_2; [done | left].
  - rewrite IH. destruct (decide (f ∈ o.*1)) as [E2|E2].
    + rewrite !bool_decide_eq_true_2; [done | by right | done].
    + rewrite !bool_decide_eq_false_2; [done | by apply not_elem_of_cons | done].
Qed.

Lemma obj_set_NoDup (f : string) (v : Json) (o : Obj) :
  NoDup o.*1 → NoDup (obj_set f v o).*1.
Proof.
  intros Hnd. rewrite obj_set_fields. case_bool_decide as E; [done|].
  apply NoDup_app. split_and!; [done | | apply NoDup_singleton].
  intros x Hx Hx'. apply list_elem_of_singleton in Hx' as ->. done.
Qed.

Lemma obj_assign_NoDup (base src : Obj) :
  NoDup base.*1 → NoDup (obj_assign base src).*1.
Proof.
  revert base. induction src as [|[f v] src IH]; intros base Hnd; [done|].
  apply IH. by apply obj_set_NoDup.
Qed.

Lemma obj_assign_nil_idemp (o : Obj) : obj_assign [] (obj_assign [] o) = obj_assign [] o.
Proof.
  apply (obj_assign_disjoint []). simpl. apply obj_assign_NoDup. constructor.
Qed.

Lemma obj_assign_nil_NoDup (o : Obj) : NoDup o.*1 → obj_assign [] o = o.
Proof. intros Hnd. by apply (obj_assign_disjoint []). Qed.

Lemma obj_get_assign_notin (f : string) (base src : Obj) :
  f ∉ src.*1 → obj_get f (obj_assign base src) = obj_get f base.
Proof.
  revert base. induction src as [|[g v] src IH]; intros base Hnin; [done|].
  simpl in Hnin. apply not_elem_of_cons in Hnin as [Hne Hnin].
  unfold obj_assign in *. simpl. rewrite IH by done.
  rewrite obj_get_set. by rewrite decide_False.
Qed.

Lemma obj_remove_set_ne (f g : string) (v : Json) (o : Obj) :
  g ≠ f → obj_remove f (obj_set g v o) = obj_set g v (obj_remove f o).
Proof.
  intros Hne. induction o as [|[h w] o IH]; simpl.
  - by apply String.eqb_neq in Hne as ->.
  - destruct (String.eqb_spec g h) as [<-|E]; simpl.
    + apply String.eqb_neq in Hne as ->. simpl. by rewrite String.eqb_refl.
    + destruct (String.eqb_spec h f) as [->|Hhf]; simpl; [apply IH|].
      apply String.eqb_neq in E as ->. by rewrite IH.
Qed.

Lemma obj_remove_assign (f : string) (base src : Obj) :
  f ∉ src.*1 → obj_remove f (obj_assign base src) = obj_assign (obj_remove f base) src.
Proof.
  revert base. induction src as [|[g v] src IH]; intros base Hnin; [done|].
  simpl in Hnin. apply not_elem_of_cons in Hnin as [Hne Hnin].
  unfold obj_assign in *. simpl. rewrite IH by done.
  by rewrite obj_remove_set_ne.
Qed.

Lemma obj_get_assign (f : string) (base src : Obj) :
  NoDup src.*1 →
  obj_get f (obj_assign base src) =
    match obj_get f src with Some v => Some v | None => obj_get f base end.
Proof.
  revert base. induction src as [|[g v] src IH]; intros base Hnd; [done|].
  simpl in Hnd. apply NoDup_cons in Hnd as [Hg Hnd].
  unfold obj_assign in *. simpl. rewrite String_eqb_decide. case_bool_decide as E.
  - subst g. rewrite (obj_get_assign_notin f) by done.
    rewrite obj_get_set. by rewrite decide_True.
  - rewrite IH by done. destruct (obj_get f src); [done|].
    rewrite obj_get_set. by rewrite decide_False.
Qed.

Section Client.
Variable JSON_parse : string → Result Obj.
Variable validateRow : Obj → Obj → Result unit.
Variable this : TableClient.t.

Abbreviation validate := (TableClient.validate JSON_parse validateRow this).
Abbreviation insert := (TableClient.insert JSON_parse validateRow this).
Abbreviation update := (TableClient.update JSON_parse validateRow this).
Abbreviation upsert := (TableClient.upsert JSON_parse validateRow this).

Lemma validate_state (row : Obj) (tbl : Bigtable.Table) : (validate row tbl).2 = tbl.
Proof.
  unfold TableClient.validate, mbind, M_bind, lift; simpl.
  by destruct (JSON_parse _).
Qed.

Lemma validate_Ok (row cols : Obj) (tbl : Bigtable.Table) :
  JSON_parse (TableClient.columns this) = Ok cols → validateRow row cols = Ok tt →
  validate row tbl = (Ok tt, tbl).
Proof.
  intros HP HV. unfold TableClient.validate, mbind, M_bind, lift; simpl. by rewrite HP, HV.
Qed.

Lemma validate_Throw (row cols : Obj) (e : exn) (tbl : Bigtable.Table) :
  JSON_parse (TableClient.columns this) = Ok cols → validateRow row cols = Throw e →
  validate row tbl = (Throw e, tbl).
Proof.
  intros HP HV. unfold TableClient.validate, mbind, M_bind, lift; simpl. by rewrite HP, HV.
Qed.

Lemma validate_cases (row : Obj) (tbl : Bigtable.Table) :
  validate row tbl = (Ok tt, tbl) ∨ ∃ e, validate row tbl = (Throw e, tbl).
Proof.
  unfold TableClient.validate, mbind, M_bind, lift; simpl.
  destruct (JSON_parse _) as [cols|e]; [|eauto].
  destruct (validateRow row cols) as [[]|e]; eauto.
Qed.

Lemma insert_invalid (key : string) (row : Obj) (e : exn) (tbl : Bigtable.Table) :
  validate row tbl = (Throw e, tbl) → insert key row tbl = (Throw e, tbl).
Proof. intros Hv. unfold TableClient.insert, mbind, M_bind. by rewrite Hv. Qed.

Lemma update_invalid (key : string) (row : Obj) (e : exn) (tbl : Bigtable.Table) :
  validate row tbl = (Throw e, tbl) → update key row tbl = (Throw e, tbl).
Proof. intros Hv. unfold TableClient.update, mbind, M_bind. by rewrite Hv. Qed.

Lemma upsert_invalid (key : string) (row : Obj) (e : exn) (tbl : Bigtable.Table) :
  validate row tbl = (Throw e, tbl) → upsert key row tbl = (Throw e, tbl).
Proof. intros Hv. unfold TableClient.upsert, mbind, M_bind. by rewrite Hv. Qed.

Lemma insert_existing (key : string) (row : Obj) (tbl : Bigtable.Table) :
  validate row tbl = (Ok tt, tbl) → is_Some (tbl !! key) →
  insert key row tbl = (Throw (TableClient.alreadyExists key), tbl).
Proof.
  intros Hv Hex. unfold TableClient.insert, mbind, M_bind. rewrite Hv.
  unfold Bigtable.row_exists, gets. by rewrite bool_decide_eq_true_2.
Qed.

Lemma insertRow_key (key : string) (row : Obj) :
  "key" ∉ row.*1 → obj_get "key" (obj_assign [("key", JString key)] row) = Some (JString key).
Proof. intros Hk. by rewrite obj_get_assign_notin. Qed.

Lemma insertRow_cells (key : string) (row : Obj) :
  "key" ∉ row.*1 →
  obj_remove "key" (obj_assign [("key", JString key)] row) = obj_assign [] row.
Proof. intros Hk. by rewrite obj_remove_assign. Qed.

Lemma insert_new (key : string) (row : Obj) (tbl : Bigtable.Table) :
  validate row tbl = (Ok tt, tbl) → tbl !! key = None → "key" ∉ row.*1 →
  insert key row tbl = (Ok tt, <[key := obj_assign [] row]> tbl).
Proof.
  intros Hv Hnew Hk. unfold TableClient.insert, mbind, M_bind. rewrite Hv.
  unfold Bigtable.row_exists, gets.
  rewrite bool_decide_eq_false_2 by (rewrite Hnew; by intros []).
  unfold Bigtable.table_insert. rewrite insertRow_key by done.
  unfold modify. rewrite insertRow_cells by done. rewrite Hnew. simpl.
  by rewrite obj_assign_nil_idemp.
Qed.

Lemma insert_Ok_inv (key : string) (row : Obj) (tbl tbl' : Bigtable.Table) :
  insert key row tbl = (Ok tt, tbl') →
  validate row tbl = (Ok tt, tbl) ∧ tbl !! key = None.
Proof.
  intros Hi. unfold TableClient.insert, mbind, M_bind in Hi.
  destruct (validate_cases row tbl) as [Hv|[e Hv]]; rewrite Hv in Hi; [|discriminate].
  split; [done|]. unfold Bigtable.row_exists, gets in Hi.
  case_bool_decide as Hex; [discriminate|].
  by apply eq_None_not_Some.
Qed.

Lemma save_all (key : string) (row data : Obj) (tbl : Bigtable.Table) :
  tbl !! key = Some data →
  for_of row (λ '(column, value), Bigtable.row_save key (split_head ":" column) value) tbl
  = (Ok tt, <[key := saved row data]> tbl).
Proof.
  revert data tbl. induction row as [|[column value] row IH]; intros data tbl Hd; simpl.
  - unfold mret, M_ret. by rewrite insert_id.
  - unfold mbind, M_bind, Bigtable.row_save, modify. rewrite Hd. simpl.
    rewrite (IH (obj_set (split_head ":" column) value data)) by apply lookup_insert_eq.
    by rewrite insert_insert_eq.
Qed.


Lemma update_existing (key : string) (row data : Obj) (tbl : Bigtable.Table) :
  validate row tbl = (Ok tt, tbl) → tbl !! key = Some data →
  update key row tbl = (Ok tt, <[key := saved row data]> tbl).
Proof.
  intros Hv Hd. unfold TableClient.update, mbind, M_bind. rewrite Hv.
  unfold Bigtable.row_exists, gets. rewrite bool_decide_eq_true_2 by by rewrite Hd.
  simpl. by apply save_all.
Qed.

Lemma upsert_dispatch (key : string) (row : Obj) (tbl : Bigtable.Table) :
  validate row tbl = (Ok tt, tbl) →
  upsert key row tbl =
    if bool_decide (is_Some (tbl !! key)) then update key row tbl else insert key row tbl.
Proof.
  intros Hv. unfold TableClient.upsert, mbind, M_bind. rewrite Hv.
  unfold Bigtable.row_exists, gets. by case_bool_decide.
Qed.
End Client.

Section Reads.
Variable Json_parse : Json → Result Json.
Variable Json_stringify : Json → string.

Lemma get_existing (key : string) (data : Obj) (tbl : Bigtable.Table) :
  tbl !! key = Some data →
  TableClient.get Json_parse key tbl = (Json_parse (JObject data), tbl).
Proof.
  intros Hd. unfold TableClient.get, mbind, M_bind, Bigtable.row_exists, gets.
  rewrite bool_decide_eq_true_2 by by rewrite Hd. simpl.
  unfold Bigtable.row_get_data. rewrite Hd. unfold lift.
  by destruct (Json_parse _).
Qed.

Lemma get_missing (key : string) (tbl : Bigtable.Table) :
  tbl !! key = None →
  TableClient.get Json_parse key tbl = (Throw (TableClient.doesNotExist key), tbl).
Proof.
  intros Hd. unfold TableClient.get, mbind, M_bind, Bigtable.row_exists, gets.
  rewrite bool_decide_eq_false_2; [done|]. rewrite Hd. by intros [].
Qed.

Lemma tryGet_missing (key : string) (tbl : Bigtable.Table) :
  tbl !! key = None → TableClient.tryGet Json_parse Json_stringify key tbl = (Ok None, tbl).
Proof.
  intros Hd. unfold TableClient.tryGet, mbind, M_bind, Bigtable.row_exists, gets.
  rewrite bool_decide_eq_false_2; [done|]. rewrite Hd. by intros [].
Qed.

Lemma tryGet_existing (key : string) (data : Obj) (r : Result Json)
    (tbl : Bigtable.Table) :
  tbl !! key = Some data →
  Json_parse (JString (Json_stringify (JObject data))) = r →
  TableClient.tryGet Json_parse Json_stringify key tbl
  = (match r with Ok j => Ok (Some j) | Throw e => Throw e end, tbl).
Proof.
  intros Hd Hr. unfold TableClient.tryGet, mbind, M_bind, Bigtable.row_exists, gets.
  rewrite bool_decide_eq_true_2 by by rewrite Hd. simpl.
  unfold Bigtable.row_get_data. rewrite Hd. unfold lift. rewrite Hr.
  by destruct r.
Qed.
End Reads.

Lemma delete_Ok_inv (key : string) (tbl tbl' : Bigtable.Table) :
  TableClient.delete key tbl = (Ok tt, tbl') →
  is_Some (tbl !! key) ∧ tbl' = base.delete key tbl.
Proof.
  unfold TableClient.delete, mbind, M_bind, Bigtable.row_exists, gets.
  case_bool_decide as Hex; simpl; [|discriminate].
  unfold Bigtable.row_delete, modify. by intros [= <-].
Qed.

Lemma validateRow_undeclared (row cols : Obj) (f : string) :
  f ∈ row.*1 → obj_get f cols = None →
  ∃ g, g ∈ row.*1 ∧ obj_get g cols = None
       ∧ validateRow row cols = Throw (SchemaValidationError g).
Proof.
  induction row as [|[h v] row IH]; simpl; intros Hin Hf.
  - by apply elem_of_nil in Hin.
  - destruct (obj_get h cols) as [m|] eqn:Eh.
    + apply elem_of_cons in Hin as [->|Hin]; [congruence|].
      destruct (IH Hin Hf) as (g & Hg & Hgc & Hv). exists g. split_and!; [by right|done..].
    + exists h. split_and!; [left|done..].
Qed.

Lemma validateRow_declared (row cols : Obj) :
  Forall (λ p, is_Some (obj_get p.1 cols)) row → validateRow row cols = Ok tt.
Proof.
  induction 1 as [|[h v] row [m Hm] _ IH]; simpl; [done|].
  simpl in Hm. by rewrite Hm.
Qed.

(** ** Properties of the binding protocol *)

Lemma seq_Ok_inv {S} (m1 m2 : M S unit) (s s' : S) :
  (m1 ;; m2) s = (Ok tt, s') → ∃ s1, m1 s = (Ok tt, s1) ∧ m2 s1 = (Ok tt, s').
Proof.
  unfold mbind, M_bind. destruct (m1 s) as [[[]|e] s1]; [eauto | discriminate].
Qed.

Lemma roles_grant_of (ops : list string) (w : Table.world) :
  roles [grant_of ops w] = [BigtablePermissions_value (Table.permissionName ops)].
Proof. done. Qed.

Lemma bind_bind_Ok (this : Table.t) (ops1 ops2 : list string) (w w' : Table.world) :
  fresh_ids w →
  (Table.bind this ops1 ;; Table.bind this ops2) w = (Ok tt, w') →
  ∃ w1, Table.bind this ops1 w = (Ok tt, w1)
        ∧ grants this w' = grants this w ++ [grant_of ops1 w; grant_of ops2 w1]
        ∧ fresh_ids w'.
Proof.
  intros Hfresh Hrun. apply seq_Ok_inv in Hrun as (w1 & H1 & H2).
  destruct (bind_Ok _ _ _ _ Hfresh H1) as [Hg1 Hfresh1].
  destruct (bind_Ok _ _ _ _ Hfresh1 H2) as [Hg2 Hfresh2].
  exists w1. split_and!; [done | | done].
  rewrite Hg2, Hg1. by rewrite <- app_assoc.
Qed.

Lemma bind_bind_unbuilt (this : Table.t) (ops1 ops2 : list string) (w : Table.world)
    (f : Function.t) :
  Table.host w = GCPFunction f → Function.function f = None →
  accepted ops1 = true → accepted ops2 = true →
  ∃ w', (Table.bind this ops1 ;; Table.bind this ops2) w = (Ok tt, w').
Proof.
  intros Hh Hfn Ha1 Ha2. destruct (bind_unbuilt this ops1 w f Hh Hfn Ha1) as (f1 & H1 & Hfn1).
  unfold mbind, M_bind. rewrite H1.
  destruct (bind_unbuilt this ops2
              (Table.mkWorld (S (Table.next_id w)) (GCPFunction f1) (bound_after this ops1 w))
              f1 eq_refl Hfn1 Ha2) as (f2 & H2 & _).
  eauto.
Qed.

(** The check of [addPermission] does recognise an object it was given
    before: handing it the same object again changes nothing. *)
Lemma addPermission_same_object (resource : IResource) (r : Ref ScopedRoleAssignment)
    (f f1 : Function.t) :
  Function.addPermission resource r f = (Ok tt, f1) →
  Function.addPermission resource r f1 = (Ok tt, f1).
Proof.
  intros H1.
  assert (Set_has (granted f1 resource) r = true ∧ is_Some (Function.permissions f1))
    as [Hheld [p Hp]].
  { destruct (Set_has (granted f resource) r) eqn:E.
    - rewrite addPermission_held in H1 by done. injection H1 as <-.
      split; [|by eexists]. unfold granted in *. done.
    - rewrite addPermission_new in H1 by done. simpl in H1.
      assert (r ∈ granted f resource ++ [r]) as Hin by (apply elem_of_app; right; left).
      destruct (Function.function f).
      + case_bool_decide; [discriminate|]. injection H1 as <-.
        split; [|by eexists]. rewrite granted_recorded. by apply Set_has_true_elem.
      + injection H1 as <-.
        split; [|by eexists]. rewrite granted_recorded. by apply Set_has_true_elem. }
  rewrite addPermission_held by done. rewrite Hp. simpl.
  destruct f1; simpl in *. by subst.
Qed.

Lemma fresh_ids_unbuilt : fresh_ids Example.world_unbuilt.
Proof. intros f key s r [= <-] Hget _. discriminate. Qed.

(** C1.  Binding the same operations twice is meant to leave one grant per
    (producer, principal, role).  On the code it leaves two: [bind] hands
    [addPermission] a new object at every call, and the set of grants tells
    objects apart by identity.  Here [handler] binds [users] twice for
    [get]; both calls return and the function holds two grants of the
    viewer role for the table. *)
Theorem bind_same_ops_twice_duplicates :
  (Table.bind Example.users ["get"] ;; Table.bind Example.users ["get"]) Example.world_unbuilt
  = (Ok tt,
     {| Table.next_id := 2;
        Table.host := GCPFunction
          (Function.set_permissions
             [(node_addr (Table.node Example.users), [Example.viewer 0; Example.viewer 1])]
             Example.handler_unbuilt);
        Table.bound := {[ node_addr (Table.node Example.users) := {[ "get" ]} ]} |}).
Proof.
  vm_compute. reflexivity.
Qed.

(** Once the cloud function exists, the second of two equal bindings is no
    silent no-op either: [addPermission] asks for a second policy construct
    under the id of the first, and the construct tree refuses it. *)
Lemma bind_same_ops_twice_built :
  ((Table.bind Example.users ["get"] ;; Table.bind Example.users ["get"]) Example.world_built).1
  = Throw (DuplicateConstruct
             ("FunctionIamPolicy-" +:+ node_addr (Table.node Example.users))).
Proof. vm_compute. reflexivity. Qed.

(** And when the two bindings came before the cloud function, the
    constructor meets two grants under the key of the table and asks for
    two policy constructs of one id. *)
Lemma constructor_after_duplicate_grants :
  let w := ((Table.bind Example.users ["get"] ;; Table.bind Example.users ["get"])
              Example.world_unbuilt).2 in
  ∃ f, Table.host w = GCPFunction f
       ∧ (Function.constructor_body "handler" "handler" "/tmp/bundle" ".zip" f).1
         = Throw (DuplicateConstruct
                    ("FunctionIamPolicy-" +:+ node_addr (Table.node Example.users))).
Proof. eexists. split; [reflexivity|]. vm_compute. reflexivity. Qed.

(** In general: while the cloud function does not exist, binding twice
    with one operation list that [super.bind] lets through records two
    grants of one role. *)
Lemma bind_twice_unbuilt (this : Table.t) (ops : list string) (w : Table.world)
    (f : Function.t) :
  fresh_ids w → Table.host w = GCPFunction f → Function.function f = None →
  accepted ops = true →
  ∃ w', (Table.bind this ops ;; Table.bind this ops) w = (Ok tt, w')
        ∧ roles (grants this w') =
            roles (grants this w)
            ++ [BigtablePermissions_value (Table.permissionName ops);
                BigtablePermissions_value (Table.permissionName ops)].
Proof.
  intros Hfresh Hh Hfn Hacc.
  destruct (bind_bind_unbuilt this ops ops w f Hh Hfn Hacc Hacc) as [w' Hrun].
  exists w'. split; [done|].
  destruct (bind_bind_Ok _ _ _ _ _ Hfresh Hrun) as (w1 & _ & -> & _).
  unfold roles. by rewrite fmap_app.
Qed.

(** C2.  A binding for [get] and a later one for [update] are meant to
    leave the READWRITE grant alone.  The code has no way to get there.
    The policy construct of a grant is named after the resource alone, so a
    function has room for one role for each resource.  While the cloud
    function does not exist both calls return and the function holds the
    viewer grant and the user grant for the table, on which the
    constructor then fails: it asks for two policy constructs of one id.
    Once the cloud function exists the later binding is refused by the
    construct tree and the viewer grant is all the function holds. *)
Theorem bind_get_then_update_no_escalation :
  (let run := (Table.bind Example.users ["get"] ;; Table.bind Example.users ["update"])
                Example.world_unbuilt in
   run.1 = Ok tt
   ∧ grants Example.users run.2 = [Example.viewer 0; Example.user 1]
   ∧ ∃ f, Table.host run.2 = GCPFunction f
          ∧ (Function.constructor_body "handler" "handler" "/tmp/bundle" ".zip" f).1
            = Throw (DuplicateConstruct
                       ("FunctionIamPolicy-" +:+ node_addr (Table.node Example.users))))
  ∧ (let run := (Table.bind Example.users ["get"] ;; Table.bind Example.users ["update"])
                  Example.world_built in
     run.1 = Throw (DuplicateConstruct
                      ("FunctionIamPolicy-" +:+ node_addr (Table.node Example.users)))
     ∧ grants Example.users run.2 = [Example.viewer 0]).
Proof.
  split.
  - split_and!; [by vm_compute | by vm_compute |].
    eexists. split; [reflexivity|]. vm_compute. reflexivity.
  - split; vm_compute; reflexivity.
Qed.

(** C3.  The role [bind] infers is READWRITE exactly when the operation
    list holds delete, update or upsert, and READ otherwise; every
    operation of the table vocabulary has its role (get, tryGet, list and
    insert on their own give READ). *)
Theorem permissionName_spec (ops : list string) :
  (Table.permissionName ops = READWRITE
     ↔ "delete" ∈ ops ∨ "update" ∈ ops ∨ "upsert" ∈ ops)
  ∧ (Table.permissionName ops = READ
     ↔ ¬ ("delete" ∈ ops ∨ "update" ∈ ops ∨ "upsert" ∈ ops))
  ∧ (λ op, Table.permissionName [op]) <$> TableInflightMethods.vocabulary
    = [READ; READ; READ; READ; READWRITE; READWRITE; READWRITE].
Proof.
  assert (Table.permissionName ops = READWRITE
          ↔ "delete" ∈ ops ∨ "update" ∈ ops ∨ "upsert" ∈ ops) as Hrw.
  { unfold Table.permissionName. rewrite <- !includes_In.
    unfold TableInflightMethods.DELETE, TableInflightMethods.UPDATE, TableInflightMethods.UPSERT.
    destruct (includes ops "delete"), (includes ops "update"), (includes ops "upsert");
      simpl; intuition congruence. }
  split_and!; [done | | done].
  rewrite <- Hrw. destruct (Table.permissionName ops); intuition congruence.
Qed.

Lemma fresh_ids_other : fresh_ids Example.world_other.
Proof. intros f key s r Hh. discriminate. Qed.

(** C9, as stated, fails.  [bind] hands the grant to the host before it
    hands the operations to [super.bind]: a binding with an empty
    operation list is rejected, and the viewer grant it led to is recorded
    all the same. *)
Lemma bind_empty_ops_counterexample :
  let run := Table.bind Example.users [] Example.world_unbuilt in
  run.1 = Throw EmptyOperations ∧ grants Example.users run.2 = [Example.viewer 0].
Proof. vm_compute. split; reflexivity. Qed.

(** C9, amended.  The class of the host is what [bind] checks first: a
    host that is no [tfgcp.Function] is rejected at the call and the world
    stays as it was, no grant recorded.  A binding with an empty operation
    list fails at the call too, on every host. *)
Theorem bind_rejections (this : Table.t) (w : Table.world) :
  (∀ ops c, Table.host w = OtherHost c →
     Table.bind this ops w
     = (Throw (JsError "Table can only be bound by tfgcp.Function"), w))
  ∧ ∃ e w', Table.bind this [] w = (Throw e, w').
Proof.
  split.
  - intros ops c Hh. by eapply bind_other.
  - destruct (Table.host w) as [f|c] eqn:Hh.
    + rewrite (bind_function _ _ _ _ Hh).
      destruct (Function.addPermission _ _ f) as [[[]|e] f']; simpl; eauto.
    + rewrite (bind_other _ _ _ _ Hh). eauto.
Qed.

Lemma bind_rejections_witness :
  Table.bind Example.users ["get"] Example.world_other
  = (Throw (JsError "Table can only be bound by tfgcp.Function"), Example.world_other)
  ∧ (∃ e w', Table.bind Example.users [] Example.world_unbuilt = (Throw e, w'))
  ∧ ∃ e w', Table.bind Example.users [] Example.world_built = (Throw e, w').
Proof.
  split_and!.
  - exact (proj1 (bind_rejections Example.users Example.world_other) ["get"] "Queue" eq_refl).
  - exact (proj2 (bind_rejections Example.users Example.world_unbuilt)).
  - exact (proj2 (bind_rejections Example.users Example.world_built)).
Defined.

(** ** Properties of the table constructor *)

(** Without initial rows the constructor creates the Bigtable instance and
    the table under it. *)
Lemma constructor_plain (generateName : IResource → NameOptions → string)
    (a : App) (n : IResource) (props : TableProps) :
  initialRows props = None →
  Table.constructor generateName a n props []
  = (Ok {| Table.node := n; Table.columns := default [] (props_columns props) |},
     [("Instance", BigtableInstance (generateName n Table.INSTANCE_NAME_OPTS) (zone a));
      ("Default", BigtableTable (generateName n Table.TABLE_NAME_OPTS)
                    (generateName n Table.INSTANCE_NAME_OPTS)
                    (default [] (props_columns props)).*1 (projectId a))]).
Proof. intros Hno. unfold Table.constructor. rewrite Hno. reflexivity. Qed.

(** C8.  A table configured with initial rows fails at construction with
    the error that names the unsupported property, before any construct of
    the table is created: the constructs under the table are those there
    were before the call, none for a new table. *)
Theorem constructor_initialRows_rejected (generateName : IResource → NameOptions → string)
    (a : App) (n : IResource) (props : TableProps) (rows : list (string * Obj))
    (kids : list (string * Construct)) :
  initialRows props = Some rows →
  Table.constructor generateName a n props kids
  = (Throw (JsError "property initialRows is not supported for the GCP target"), kids).
Proof. intros Hrows. unfold Table.constructor. by rewrite Hrows. Qed.

Lemma constructor_initialRows_rejected_witness :
  let props := {| props_columns := Some [("col", JString "string")];
                  initialRows := Some [("row1", [("col", JString "a")])] |} in
  initialRows props = Some [("row1", [("col", JString "a")])]
  ∧ Table.constructor Example.generateName Example.app (Table.node Example.users) props []
    = (Throw (JsError "property initialRows is not supported for the GCP target"), []).
Proof.
  split; [reflexivity|].
  apply (constructor_initialRows_rejected Example.generateName Example.app
           (Table.node Example.users) _ [("row1", [("col", JString "a")])] []).
  reflexivity.
Defined.

(** ** Properties of the table client *)




(** C5, as stated, fails.  The second [insert] validates its row before it
    looks for the key: with a row that does not validate it fails with the
    validation error, not with the error of an existing key.  And when the
    first row has a field [key], the first [insert] writes under that
    field's value: the key itself stays free and the second [insert]
    succeeds. *)
Lemma insert_twice_counterexample :
  (Example.insert Example.narrow "row1" [("col", JString "a")] ∅ = (Ok tt, Example.one_row)
   ∧ Example.insert Example.narrow "row1" [("col", JString "b"); ("val", JNumber 1)]
       Example.one_row
     = (Throw (SchemaValidationError "val"), Example.one_row))
  ∧ (let first := Example.insert Example.wide "row1"
                    [("key", JString "other"); ("col", JString "a")] ∅ in
     first.1 = Ok tt
     ∧ (Example.insert Example.wide "row1" [("col", JString "b")] first.2).1 = Ok tt).
Proof. vm_compute. repeat split. Qed.

(** C5, amended.  For every key and every row without a field [key]: if
    [insert] of the row succeeded, the key holds the row, and a second
    [insert] on the key fails whatever its row and leaves the table as it
    is; it fails with the error of an existing key when its row validates
    (and with the validation error otherwise). *)
Theorem insert_twice (parse : string → Result Obj) (valid : Obj → Obj → Result unit)
    (this : TableClient.t) (key : string) (row : Obj) (tbl tbl1 : Bigtable.Table) :
  "key" ∉ row.*1 →
  TableClient.insert parse valid this key row tbl = (Ok tt, tbl1) →
  tbl1 !! key = Some (obj_assign [] row)
  ∧ (∀ row2, ∃ e, TableClient.insert parse valid this key row2 tbl1 = (Throw e, tbl1))
  ∧ (∀ row2 cols, parse (TableClient.columns this) = Ok cols → valid row2 cols = Ok tt →
       TableClient.insert parse valid this key row2 tbl1
       = (Throw (TableClient.alreadyExists key), tbl1))
  ∧ (∀ row2 cols e, parse (TableClient.columns this) = Ok cols → valid row2 cols = Throw e →
       TableClient.insert parse valid this key row2 tbl1 = (Throw e, tbl1)).
Proof.
  intros Hkey Hins.
  destruct (insert_Ok_inv _ _ _ _ _ _ _ Hins) as [Hv Hnew].
  rewrite insert_new in Hins by done. injection Hins as <-.
  assert (is_Some (<[key := obj_assign [] row]> tbl !! key)) as Hex
    by (rewrite lookup_insert_eq; eauto).
  split_and!.
  - apply lookup_insert_eq.
  - intros row2.
    destruct (validate_cases parse valid this row2 (<[key := obj_assign [] row]> tbl))
      as [Hv2|[e Hv2]].
    + eexists. by apply insert_existing.
    + exists e. by apply insert_invalid.
  - intros row2 cols HP HV. apply insert_existing; [|done]. by eapply validate_Ok.
  - intros row2 cols e HP HV. apply insert_invalid. by eapply validate_Throw.
Qed.

Lemma insert_twice_witness :
(("key" ∉ [("col", JString "a")].*1)
   ∧ Example.insert Example.narrow "row1" [("col", JString "a")] ∅ = (Ok tt, Example.one_row))
  ∧ Example.one_row !! "row1" = Some [("col", JString "a")]
  ∧ Example.insert Example.narrow "row1" [("col", JString "b")] Example.one_row
    = (Throw (TableClient.alreadyExists "row1"), Example.one_row).
Proof.
  assert ("key" ∉ [("col", JString "a")].*1) as Hkey.
  { intros [H|H]%elem_of_cons; [discriminate | by apply elem_of_nil in H]. }
  assert (Example.insert Example.narrow "row1" [("col", JString "a")] ∅
          = (Ok tt, Example.one_row)) as Hins by (vm_compute; reflexivity).
  split; [by split|].
  destruct (insert_twice Example.JSON_parse validateRow Example.narrow "row1"
              [("col", JString "a")] ∅ Example.one_row Hkey Hins) as (Hrow & _ & Hagain & _).
  split; [exact Hrow|].
  exact (Hagain [("col", JString "b")] Example.schema_col eq_refl eq_refl).
Defined.

(** C6.  After a [delete] that succeeded, [get] of the key fails with the
    error of a missing row and [tryGet] returns undefined; [tryGet] of a
    missing key never fails. *)
Theorem delete_then_get (Json_parse : Json → Result Json) (Json_stringify : Json → string)
    (key : string) (tbl : Bigtable.Table) :
  (∀ tbl', TableClient.delete key tbl = (Ok tt, tbl') →
     TableClient.get Json_parse key tbl' = (Throw (TableClient.doesNotExist key), tbl')
     ∧ TableClient.tryGet Json_parse Json_stringify key tbl' = (Ok None, tbl'))
  ∧ (tbl !! key = None →
     TableClient.tryGet Json_parse Json_stringify key tbl = (Ok None, tbl)).
Proof.
  split.
  - intros tbl' Hdel. apply delete_Ok_inv in Hdel as [_ ->].
    split; [apply get_missing | apply tryGet_missing]; apply lookup_delete_eq.
  - apply tryGet_missing.
Qed.

Lemma delete_then_get_witness :
  TableClient.delete "row1" Example.one_row = (Ok tt, ∅)
  ∧ Example.get "row1" ∅ = (Throw (TableClient.doesNotExist "row1"), ∅)
  ∧ Example.tryGet "row1" ∅ = (Ok None, ∅)
  ∧ Example.tryGet "row2" Example.one_row = (Ok None, Example.one_row).
Proof.
  assert (TableClient.delete "row1" Example.one_row = (Ok tt, ∅)) as Hdel
    by (vm_compute; reflexivity).
  destruct (delete_then_get Example.Json_parse Example.Json_stringify "row1" Example.one_row)
    as [Hafter _].
  destruct (Hafter ∅ Hdel) as [Hget Htry].
  split_and!; [exact Hdel | exact Hget | exact Htry |].
  apply (delete_then_get Example.Json_parse Example.Json_stringify "row2" Example.one_row).
  vm_compute. reflexivity.
Defined.

(** C7.  With rows validated as the spec has it, a write (insert, update
    or upsert) of a row with a field the schema does not declare fails
    with the validation error for an undeclared field of the row, and the
    table stays as it is. *)
Theorem write_undeclared_field (parse : string → Result Obj) (this : TableClient.t)
    (cols : Obj) (key : string) (row : Obj) (f : string) (tbl : Bigtable.Table) :
  parse (TableClient.columns this) = Ok cols →
  f ∈ row.*1 → obj_get f cols = None →
  ∃ g, g ∈ row.*1 ∧ obj_get g cols = None
       ∧ TableClient.insert parse validateRow this key row tbl
         = (Throw (SchemaValidationError g), tbl)
       ∧ TableClient.update parse validateRow this key row tbl
         = (Throw (SchemaValidationError g), tbl)
       ∧ TableClient.upsert parse validateRow this key row tbl
         = (Throw (SchemaValidationError g), tbl).
Proof.
  intros HP Hin Hf.
  destruct (validateRow_undeclared row cols f Hin Hf) as (g & Hg & Hgc & HV).
  pose proof (validate_Throw parse validateRow this row cols _ tbl HP HV) as Hv.
  exists g. split_and!; [done | done | | |].
  - by apply insert_invalid.
  - by apply update_invalid.
  - by apply upsert_invalid.
Qed.

Lemma write_undeclared_field_witness :
  (Example.JSON_parse (TableClient.columns Example.narrow) = Ok Example.schema_col
   ∧ "val" ∈ [("col", JString "a"); ("val", JNumber 1)].*1
   ∧ obj_get "val" Example.schema_col = None)
  ∧ ∃ g, g ∈ [("col", JString "a"); ("val", JNumber 1)].*1
         ∧ obj_get g Example.schema_col = None
         ∧ Example.insert Example.narrow "row1" [("col", JString "a"); ("val", JNumber 1)] ∅
           = (Throw (SchemaValidationError g), ∅)
         ∧ Example.update Example.narrow "row1" [("col", JString "a"); ("val", JNumber 1)] ∅
           = (Throw (SchemaValidationError g), ∅)
         ∧ Example.upsert Example.narrow "row1" [("col", JString "a"); ("val", JNumber 1)] ∅
           = (Throw (SchemaValidationError g), ∅).
Proof.
  assert ("val" ∈ [("col", JString "a"); ("val", JNumber 1)].*1) as Hin
    by (right; left).
  split; [by split_and! |].
  exact (write_undeclared_field Example.JSON_parse Example.narrow Example.schema_col
           "row1" [("col", JString "a"); ("val", JNumber 1)] "val" ∅ eq_refl Hin eq_refl).
Defined.

(** The scenario of the spec: the error names the field [val]. *)
Lemma insert_undeclared_val :
  Example.insert Example.narrow "row1" [("col", JString "a"); ("val", JNumber 1)] ∅
  = (Throw (SchemaValidationError "val"), ∅).
Proof. vm_compute. reflexivity. Qed.

(** C10.  In [insert], [update] and [upsert] the row is validated first:
    when validation fails the call fails with the error of the validation
    and leaves the table as it is, whether the key exists or not; [insert]
    of such a row on an existing key does not report the existing key. *)
Theorem validation_comes_first (parse : string → Result Obj)
    (valid : Obj → Obj → Result unit) (this : TableClient.t) (cols : Obj)
    (key : string) (row : Obj) (e : exn) (tbl : Bigtable.Table) :
  parse (TableClient.columns this) = Ok cols → valid row cols = Throw e →
  TableClient.insert parse valid this key row tbl = (Throw e, tbl)
  ∧ TableClient.update parse valid this key row tbl = (Throw e, tbl)
  ∧ TableClient.upsert parse valid this key row tbl = (Throw e, tbl).
Proof.
  intros HP HV.
  pose proof (validate_Throw parse valid this row cols e tbl HP HV) as Hv.
  split_and!; [by apply insert_invalid | by apply update_invalid | by apply upsert_invalid].
Qed.

Lemma validation_comes_first_witness :
  (Example.JSON_parse (TableClient.columns Example.narrow) = Ok Example.schema_col
   ∧ validateRow [("val", JNumber 1)] Example.schema_col = Throw (SchemaValidationError "val"))
  ∧ is_Some (Example.one_row !! "row1")
  ∧ Example.insert Example.narrow "row1" [("val", JNumber 1)] Example.one_row
    = (Throw (SchemaValidationError "val"), Example.one_row)
  ∧ Example.update Example.narrow "row1" [("val", JNumber 1)] Example.one_row
    = (Throw (SchemaValidationError "val"), Example.one_row)
  ∧ Example.upsert Example.narrow "row1" [("val", JNumber 1)] Example.one_row
    = (Throw (SchemaValidationError "val"), Example.one_row).
Proof.
  split; [by split|]. split; [by eexists|].
  exact (validation_comes_first Example.JSON_parse validateRow Example.narrow
           Example.schema_col "row1" [("val", JNumber 1)] (SchemaValidationError "val")
           Example.one_row eq_refl eq_refl).
Defined.

(** ** Further properties of [addPermission] *)

(** X1.  Handing [addPermission] the same object twice in a row is the same
    as handing it once: when the first call returns, the second finds the
    object in the set and changes nothing; when the first call throws, the
    second is not reached. *)
Theorem addPermission_twice_same_object (resource : IResource)
    (r : Ref ScopedRoleAssignment) (f : Function.t) :
  (Function.addPermission resource r ;; Function.addPermission resource r) f
  = Function.addPermission resource r f.
Proof.
  unfold mbind at 1, M_bind at 1.
  destruct (Function.addPermission resource r f) as [[[]|e] f1] eqn:E; [|done].
  by apply addPermission_same_object in E.
Qed.

Lemma granted_set_permissions_other (f : Function.t) (resource resource' : IResource) s perms :
  uniqueId resource' ≠ uniqueId resource →
  granted (Function.set_permissions (Map_set (uniqueId resource) s perms) f) resource'
  = default [] (Map_get (uniqueId resource') perms).
Proof. intros Hne. unfold granted. simpl. by rewrite Map_get_set_ne. Qed.

(** What [addPermission] leaves in the permission map, whatever it
    returns. *)
Lemma addPermission_permissions (resource : IResource) (r : Ref ScopedRoleAssignment)
    (f : Function.t) :
  let f' := (Function.addPermission resource r f).2 in
  let perms := default [] (Function.permissions f) in
  Function.permissions f' = Some perms
  ∨ Function.permissions f'
    = Some (Map_set (uniqueId resource) (granted f resource ++ [r]) perms).
Proof.
  simpl. destruct (Set_has (granted f resource) r) eqn:E.
  - rewrite addPermission_held by done. by left.
  - rewrite addPermission_new by done. simpl.
    destruct (Function.function f); [case_bool_decide|]; simpl; auto.
Qed.

(** X2.  [addPermission] never takes a grant away and never touches the
    grants of another resource, whether it returns or throws. *)
Theorem addPermission_keeps_grants (resource : IResource) (r : Ref ScopedRoleAssignment)
    (f : Function.t) :
  let f' := (Function.addPermission resource r f).2 in
  (∀ g, g ∈ granted f resource → g ∈ granted f' resource)
  ∧ (∀ resource', uniqueId resource' ≠ uniqueId resource →
       granted f' resource' = granted f resource').
Proof.
  intros f'. destruct (addPermission_permissions resource r f) as [Hp|Hp]; fold f' in Hp.
  - split; intros; unfold granted; by rewrite Hp.
  - split.
    + intros g Hg. unfold granted at 1. rewrite Hp. simpl. rewrite Map_get_set_eq. simpl.
      apply elem_of_app. by left.
    + intros resource' Hne. unfold granted at 1. rewrite Hp. simpl.
      by rewrite Map_get_set_ne.
Qed.

(** X3.  Once the cloud function exists, a resource can be granted one
    object only: after a call that recorded a grant, a call for the same
    resource with another object asks for the policy construct of the
    first, is refused by the construct tree, and records nothing. *)
Theorem addPermission_second_object_refused (resource : IResource)
    (r r' : Ref ScopedRoleAssignment) (f f1 : Function.t) (name : string) :
  Function.function f = Some name →
  Set_has (granted f resource) r = false →
  Function.addPermission resource r f = (Ok tt, f1) →
  Set_has (granted f1 resource) r' = false →
  Function.addPermission resource r' f1
  = (Throw (DuplicateConstruct (policyId (uniqueId resource))), f1).
Proof.
  intros Hfn Hnew H1 Hnew'.
  rewrite addPermission_new in H1 by done. simpl in H1. rewrite Hfn in H1.
  case_bool_decide as Hid; [discriminate|]. injection H1 as <-.
  rewrite addPermission_new by done. simpl. rewrite Hfn.
  rewrite bool_decide_eq_true_2.
  - done.
  - rewrite fmap_app. apply elem_of_app. right. simpl. left.
Qed.

(** X4.  [addPermission] makes a policy construct only when the cloud
    function exists.  Before that a call with a new object returns, records
    the grant and creates nothing; after that, and with the policy id still
    free, it creates exactly one construct, which carries the role and the
    scope of the object, and records the grant. *)
Theorem addPermission_emits_when_built (resource : IResource)
    (r : Ref ScopedRoleAssignment) (f : Function.t) :
  Set_has (granted f resource) r = false →
  let run := Function.addPermission resource r f in
  (Function.function f = None →
     run.1 = Ok tt ∧ Function.children run.2 = Function.children f
     ∧ granted run.2 resource = granted f resource ++ [r])
  ∧ (∀ name, Function.function f = Some name →
       policyId (uniqueId resource) ∉ (Function.children f).*1 →
       run.1 = Ok tt
       ∧ Function.children run.2
         = Function.children f
           ++ [(policyId (uniqueId resource),
                CloudfunctionsFunctionIamPolicy
                  {| project := projectId (Function.app f);
                     region := storageLocation (Function.app f);
                     cloudFunction := name;
                     role := roleDefinitionName (ref_obj r);
                     members := [scope (ref_obj r)] |})]
       ∧ granted run.2 resource = granted f resource ++ [r]).
Proof.
  intros Hnew run. subst run. rewrite addPermission_new by done. simpl. split.
  - intros ->. split_and!; [done..|]. apply granted_recorded.
  - intros name -> Hfree. rewrite bool_decide_eq_false_2 by done.
    split_and!; [done..|]. apply granted_recorded.
Qed.

(** ** Keys and environment names *)

Lemma substring_drop (n : nat) (p s : string) :
  String.length p = n → String.substring n (String.length s) (p +:+ s) = s.
Proof.
  revert n. induction p as [|c p IH]; intros n Hn; simpl in *; subst n.
  - apply substring_all.
  - by apply IH.
Qed.

Lemma length_append (p s : string) :
  String.length (p +:+ s) = String.length p + String.length s.
Proof. induction p as [|c p IH]; simpl; [done | by rewrite IH]. Qed.

Lemma js_slice_suffix (n : nat) (p s : string) :
  String.length s = S n → js_slice (- Z.of_nat (S n)) (p +:+ s) = s.
Proof.
  intros Hn. unfold js_slice. rewrite length_append, Hn.
  replace (- Z.of_nat (S n) <? 0)%Z with true by (symmetry; apply Z.ltb_lt; lia).
  replace (Z.to_nat _) with (String.length p) by lia.
  replace (String.length p + S n - String.length p) with (String.length s) by lia.
  by apply substring_drop.
Qed.

Lemma js_slice_short (n : nat) (s : string) :
  (String.length s ≤ n)%nat → js_slice (- Z.of_nat n) s = s.
Proof.
  intros Hn. unfold js_slice.
  destruct (- Z.of_nat n <? 0)%Z eqn:E.
  - replace (Z.to_nat _) with 0 by lia. rewrite Nat.sub_0_r. apply substring_all.
  - apply Z.ltb_ge in E. replace (Z.to_nat _) with 0 by lia.
    rewrite Nat.sub_0_r. apply substring_all.
Qed.

Lemma append_inj_l (p s1 s2 : string) : p +:+ s1 = p +:+ s2 → s1 = s2.
Proof. induction p as [|c p IH]; simpl; [done|]. intros [= H]. by apply IH. Qed.

(** X5.  The key of a resource in the permission map is its whole address:
    [substring(-8)] cuts nothing off, so two resources share a key exactly
    when they share the address.  The environment names are built with
    [slice(-8)] instead, which keeps the last eight characters: two tables
    whose addresses end alike have the same environment names, though
    their keys differ. *)
Theorem key_is_address_env_is_suffix (p1 p2 suffix : string) (cols1 cols2 : Obj) :
  String.length suffix = 8 →
  let t1 := {| Table.node := {| node_addr := p1 +:+ suffix |}; Table.columns := cols1 |} in
  let t2 := {| Table.node := {| node_addr := p2 +:+ suffix |}; Table.columns := cols2 |} in
  (uniqueId (Table.node t1) = uniqueId (Table.node t2) ↔ p1 = p2)
  ∧ TableEnv.envName t1 = "BIGTABLE_TABLE_NAME_" +:+ suffix
  ∧ TableEnv.envName t1 = TableEnv.envName t2
  ∧ TableEnv.primaryKeyEnvName t1 = TableEnv.primaryKeyEnvName t2
  ∧ TableEnv.columnsEnvName t1 = TableEnv.columnsEnvName t2
  ∧ FunctionEnv.envName (Table.node t1) = "FUNCTION_NAME_" +:+ suffix.
Proof.
  intros Hlen t1 t2.
  assert (∀ p, js_slice (-8) (p +:+ suffix) = suffix) as Hs.
  { intros p. change (-8)%Z with (- Z.of_nat 8)%Z. by apply js_slice_suffix. }
  assert (TableEnv.envName t1 = "BIGTABLE_TABLE_NAME_" +:+ suffix) as H1
    by (unfold TableEnv.envName; simpl node_addr; by rewrite Hs).
  assert (TableEnv.envName t2 = "BIGTABLE_TABLE_NAME_" +:+ suffix) as H2
    by (unfold TableEnv.envName; simpl node_addr; by rewrite Hs).
  split_and!.
  - rewrite !uniqueId_addr. simpl. split; [|by intros ->].
    intros Heq. assert (String.length p1 = String.length p2) as Hl.
    { apply (f_equal String.length) in Heq. rewrite !length_append in Heq. lia. }
    clear -Heq Hl. revert p2 Heq Hl.
    induction p1 as [|c p1 IH]; intros [|c2 p2] Heq Hl; simpl in *; try done.
    injection Heq as -> Heq. f_equal. apply IH; [done | lia].
  - done.
  - by rewrite H1, H2.
  - unfold TableEnv.primaryKeyEnvName. by rewrite H1, H2.
  - unfold TableEnv.columnsEnvName. by rewrite H1, H2.
  - unfold FunctionEnv.envName. simpl node_addr. by rewrite Hs.
Qed.

Lemma key_is_address_env_is_suffix_witness :
  String.length "a3b4c5d6" = 8
  ∧ uniqueId {| node_addr := "c8e9" +:+ "a3b4c5d6" |} ≠ uniqueId {| node_addr := "c877" +:+ "a3b4c5d6" |}
  ∧ TableEnv.envName {| Table.node := {| node_addr := "c8e9" +:+ "a3b4c5d6" |}; Table.columns := [] |}
    = TableEnv.envName {| Table.node := {| node_addr := "c877" +:+ "a3b4c5d6" |}; Table.columns := [] |}.
Proof.
  split; [reflexivity|].
  destruct (key_is_address_env_is_suffix "c8e9" "c877" "a3b4c5d6" [] [] eq_refl)
    as (Hkey & _ & Henv & _).
  split; [|exact Henv].
  intros Heq. apply Hkey in Heq. discriminate.
Defined.

(** X6.  The three environment names of a table are different from one
    another, and none of them is the environment name of a function. *)
Theorem env_names_distinct (this : Table.t) (node : IResource) :
  TableEnv.envName this ≠ TableEnv.primaryKeyEnvName this
  ∧ TableEnv.envName this ≠ TableEnv.columnsEnvName this
  ∧ TableEnv.primaryKeyEnvName this ≠ TableEnv.columnsEnvName this
  ∧ FunctionEnv.envName node ≠ TableEnv.envName this
  ∧ FunctionEnv.envName node ≠ TableEnv.primaryKeyEnvName this
  ∧ FunctionEnv.envName node ≠ TableEnv.columnsEnvName this.
Proof.
  assert (∀ s t : string, t ≠ "" → s ≠ s +:+ t) as Hgrow.
  { intros s t Ht Heq. apply (f_equal String.length) in Heq.
    rewrite length_append in Heq. destruct t; [done|]. simpl in Heq. lia. }
  unfold TableEnv.primaryKeyEnvName, TableEnv.columnsEnvName.
  split_and!; [by apply Hgrow | by apply Hgrow | | | |].
  - intros Heq. apply append_inj_l in Heq. discriminate.
  - unfold FunctionEnv.envName, TableEnv.envName. simpl. discriminate.
  - unfold FunctionEnv.envName, TableEnv.envName. simpl. discriminate.
  - unfold FunctionEnv.envName, TableEnv.envName. simpl. discriminate.
Qed.

(** ** Further properties of [bind] *)

Lemma includes_app (xs ys : list string) (x : string) :
  includes (xs ++ ys) x = includes xs x || includes ys x.
Proof. unfold includes. apply existsb_app. Qed.

(** X7.  The role depends on which operations are in the list, not on
    their order or number, and never goes down when operations are added:
    the role of two lists put together is READWRITE exactly when one of
    them has it. *)
Theorem permissionName_app (ops1 ops2 : list string) :
  (Table.permissionName (ops1 ++ ops2) = READWRITE
     ↔ Table.permissionName ops1 = READWRITE ∨ Table.permissionName ops2 = READWRITE)
  ∧ Table.permissionName (ops1 ++ ops2) = Table.permissionName (ops2 ++ ops1)
  ∧ Table.permissionName (ops1 ++ ops1) = Table.permissionName ops1
  ∧ (Table.permissionName ops1 = READWRITE → Table.permissionName (ops1 ++ ops2) = READWRITE).
Proof.
  unfold Table.permissionName. rewrite !includes_app.
  destruct (includes ops1 TableInflightMethods.DELETE),
           (includes ops1 TableInflightMethods.UPDATE),
           (includes ops1 TableInflightMethods.UPSERT),
           (includes ops2 TableInflightMethods.DELETE),
           (includes ops2 TableInflightMethods.UPDATE),
           (includes ops2 TableInflightMethods.UPSERT); simpl; intuition congruence.
Qed.

(** X9.  A binding of one table leaves the grants the host holds for any
    other table as they are, whether the call returns or throws. *)
Theorem bind_other_table_untouched (this other : Table.t) (ops : list string)
    (w : Table.world) :
  node_addr (Table.node other) ≠ node_addr (Table.node this) →
  grants other (Table.bind this ops w).2 = grants other w.
Proof.
  intros Hne. destruct (Table.host w) as [f|c] eqn:Hh.
  - unfold grants. rewrite (bind_host _ _ _ _ Hh), Hh.
    destruct (addPermission_permissions (Table.node this) (grant_of ops w) f) as [Hp|Hp];
      unfold granted at 1; rewrite Hp; simpl; [done|].
    by rewrite Map_get_set_ne by (by rewrite !uniqueId_addr).
  - by rewrite (bind_other _ _ _ _ Hh).
Qed.

Lemma bind_other_table_untouched_witness :
  node_addr (Table.node Example2.orders) ≠ node_addr (Table.node Example.users)
  ∧ grants Example2.orders
      ((Table.bind Example2.orders ["get"] ;; Table.bind Example.users ["update"])
         Example.world_unbuilt).2
    = [Example.viewer 0].
Proof.
  assert (node_addr (Table.node Example2.orders) ≠ node_addr (Table.node Example.users))
    as Hne by discriminate.
  split; [exact Hne|].
  unfold mbind, M_bind.
  destruct (Table.bind Example2.orders ["get"] Example.world_unbuilt) as [[[]|e] w1] eqn:E.
  - rewrite (bind_other_table_untouched Example.users Example2.orders ["update"] w1 Hne).
    injection E as <-. vm_compute. reflexivity.
  - vm_compute in E. discriminate.
Defined.

(** X10.  On a host whose cloud function exists and which has no policy
    construct for the table yet, a binding leaves the host with its grant
    recorded and with exactly one more construct, the policy for the
    table: for the cloud function, of the role of the operation list, and
    with the one member [undefined], since [bind] gives its grant no
    scope.  That is the host after the call whatever [super.bind] makes of
    the operations. *)
Theorem bind_built_first (this : Table.t) (ops : list string) (w : Table.world)
    (f : Function.t) (name : string) :
  fresh_ids w → Table.host w = GCPFunction f → Function.function f = Some name →
  policyId (node_addr (Table.node this)) ∉ (Function.children f).*1 →
  ∃ f', Table.host (Table.bind this ops w).2 = GCPFunction f'
        ∧ granted f' (Table.node this) = granted f (Table.node this) ++ [grant_of ops w]
        ∧ Function.children f'
          = Function.children f
            ++ [(policyId (node_addr (Table.node this)),
                 CloudfunctionsFunctionIamPolicy
                   {| project := projectId (Function.app f);
                      region := storageLocation (Function.app f);
                      cloudFunction := name;
                      role := BigtablePermissions_value (Table.permissionName ops);
                      members := [None] |})].
Proof.
  intros Hfresh Hh Hfn Hfree. rewrite (bind_host _ _ _ _ Hh).
  pose proof (grant_of_fresh this ops w f Hh Hfresh) as Hnew.
  rewrite addPermission_new by done. simpl. rewrite Hfn.
  rewrite uniqueId_addr. unfold policyId in Hfree.
  rewrite bool_decide_eq_false_2 by done.
  eexists. split_and!; [reflexivity | | reflexivity].
  rewrite <- (uniqueId_addr (Table.node this)). apply granted_recorded.
Qed.

Lemma bind_built_first_witness :
  (fresh_ids Example.world_built
   ∧ Function.function Example.handler_built = Some "handler"
   ∧ (policyId (node_addr (Table.node Example.users))
      ∉ (Function.children Example.handler_built).*1))
  ∧ ∃ f', Table.host (Table.bind Example.users ["get"; "delete"] Example.world_built).2
          = GCPFunction f'
          ∧ roles (granted f' (Table.node Example.users)) = ["roles/bigtable.user"]
          ∧ length (Function.children f') = 6.
Proof.
  assert (fresh_ids Example.world_built) as Hfresh.
  { intros f key s r [= <-] Hget _. discriminate. }
  assert (policyId (node_addr (Table.node Example.users))
          ∉ (Function.children Example.handler_built).*1) as Hfree.
  { apply (bool_decide_unpack _). vm_compute. exact I. }
  split; [by split_and!|].
  destruct (bind_built_first Example.users ["get"; "delete"] Example.world_built
              Example.handler_built "handler" Hfresh eq_refl eq_refl Hfree)
    as (f' & Hb & Hg & Hkids).
  exists f'. split_and!.
  - exact Hb.
  - rewrite Hg. vm_compute. reflexivity.
  - rewrite Hkids. vm_compute. reflexivity.
Defined.

(** ** The constructor of [Function] and the recorded permissions *)

Lemma new_child_free (id : string) (c : Construct) (f : Function.t) :
  id ∉ (Function.children f).*1 →
  Function.new_child id c f = (Ok tt, Function.set_children (Function.children f ++ [(id, c)]) f).
Proof.
  intros Hfree. unfold Function.new_child, new_construct.
  by rewrite bool_decide_eq_false_2.
Qed.

Lemma for_of_ext {S A} (xs : list A) (g h : A → M S unit) :
  (∀ x, x ∈ xs → g x = h x) → for_of xs g = for_of xs h.
Proof.
  induction xs as [|x xs IH]; intros Hext; simpl; [done|].
  rewrite (Hext x) by left. rewrite IH; [done|]. intros y Hy. apply Hext. by right.
Qed.

Lemma for_of_fmap {S A B} (k : A → B) (xs : list A) (g : B → M S unit) :
  for_of (k <$> xs) g = for_of xs (λ x, g (k x)).
Proof.
  induction xs as [|x xs IH]; [done|].
  rewrite fmap_cons. cbn [for_of]. by rewrite IH.
Qed.

Lemma Map_get_elem {V} (m : list (string * V)) (k : string) (v : V) :
  NoDup m.*1 → (k, v) ∈ m → Map_get k m = Some v.
Proof.
  induction m as [|[k' w] m IH]; intros Hnd Hin; [by apply elem_of_nil in Hin|].
  simpl in *. apply NoDup_cons in Hnd as [Hk' Hnd].
  apply elem_of_cons in Hin as [[= -> ->]|Hin].
  - by rewrite String.eqb_refl.
  - destruct (String.eqb_spec k k') as [->|Hne]; [|by apply IH].
    exfalso. apply Hk'. apply list_elem_of_fmap. by exists (k', v).
Qed.

Lemma policyId_inj (k1 k2 : string) : policyId k1 = policyId k2 → k1 = k2.
Proof. apply append_inj_l. Qed.

Lemma apply_permissions (a : App) (name : string)
    (perms : list (string * list (Ref ScopedRoleAssignment))) (f : Function.t) :
  NoDup perms.*1 → Forall (λ kv, (length kv.2 ≤ 1)%nat) perms →
  (∀ key, key ∈ perms.*1 → policyId key ∉ (Function.children f).*1) →
  for_of perms (λ kv,
    for_of kv.2 (λ r, Function.new_child (policyId kv.1) (Function.iamPolicy a name (ref_obj r)))) f
  = (Ok tt, Function.set_children (Function.children f ++ policies a name perms) f).
Proof.
  revert f. induction perms as [|[key s] perms IH]; intros f Hnd Hone Hfree.
  - simpl. unfold mret, M_ret. rewrite app_nil_r. by destruct f.
  - simpl in Hnd. apply NoDup_cons in Hnd as [Hkey Hnd].
    apply Forall_cons in Hone as [Hs Hone]. simpl in Hs.
    assert (∀ g : Function.t, Function.children g = Function.children f ++ policies a name [(key, s)] →
            ∀ k, k ∈ perms.*1 → policyId k ∉ (Function.children g).*1) as Hrest.
    { intros g Hg k Hk. rewrite Hg, fmap_app. intros [Hin|Hin]%elem_of_app.
      - revert Hin. apply Hfree. by right.
      - destruct s as [|r [|r' s]]; simpl in *; [by apply elem_of_nil in Hin | | lia].
        apply list_elem_of_singleton, policyId_inj in Hin. by subst. }
    cbn [for_of]. unfold mbind at 1, M_bind at 1. cbn [fst snd].
    destruct s as [|r [|r' s]]; simpl in Hs; [| |lia].
    + cbn [for_of]. unfold mret at 1, M_ret at 1.
      rewrite IH; [done | done | done |].
      apply Hrest. simpl. by rewrite app_nil_r.
    + cbn [for_of]. unfold mbind at 1, M_bind at 1.
      rewrite new_child_free by (apply Hfree; left).
      unfold mret at 1, M_ret at 1.
      rewrite IH; [| done | done | by apply Hrest].
      simpl. unfold policies. simpl. by rewrite <- app_assoc.
Qed.

Lemma lower_alnum_head (c : ascii) (s rest : string) :
  lower_alnum s = true → (Nat.leb 65 (nat_of_ascii c) && Nat.leb (nat_of_ascii c) 90) = true →
  s ≠ String c rest.
Proof.
  intros Hs Hc ->. simpl in Hs. apply andb_true_iff in Hs as [Hs _].
  unfold is_lower_alnum in Hs. 
  apply andb_true_iff in Hc as [H1 H2]. apply Nat.leb_le in H1, H2.
  apply orb_true_iff in Hs as [Hs|Hs]; apply andb_true_iff in Hs as [H3 H4];
    apply Nat.leb_le in H3, H4; lia.
Qed.

(** X11.  The constructor makes its five constructs and then one policy
    construct for each recorded grant, in the order of the permission map.
    It completes when it starts from no construct, the function name is as
    the naming options make it, and no resource was granted more than one
    object; the recorded permissions stay as they are. *)
Theorem constructor_applies_permissions (functionName bucketName codeDir assetType : string)
    (f : Function.t) :
  Function.children f = [] →
  lower_alnum functionName = true →
  NoDup (default [] (Function.permissions f)).*1 →
  Forall (λ kv, (length kv.2 ≤ 1)%nat) (default [] (Function.permissions f)) →
  Function.constructor_body functionName bucketName codeDir assetType f
  = (Ok tt,
     {| Function.app := Function.app f;
        Function.function := Some functionName;
        Function.permissions := Function.permissions f;
        Function.children :=
          fixed_children (Function.app f) functionName bucketName codeDir assetType
          ++ policies (Function.app f) functionName (default [] (Function.permissions f)) |}).
Proof.
  intros Hkids Hname Hnd Hone. destruct f as [a fn perms kids]. simpl in *. subst kids.
  assert (∀ c rest, (Nat.leb 65 (nat_of_ascii c) && Nat.leb (nat_of_ascii c) 90) = true →
                    functionName ≠ String c rest) as Hup
    by (intros c rest Hc; by apply lower_alnum_head).
  unfold Function.constructor_body.
  unfold mbind at 1, M_bind at 1, gets at 1. cbn [fst snd Function.app].
  unfold mbind at 1, M_bind at 1. rewrite new_child_free by (simpl; apply not_elem_of_nil).
  unfold mbind at 1, M_bind at 1. rewrite new_child_free.
  2:{ simpl. intros [H|H]%elem_of_cons; [discriminate | by apply elem_of_nil in H]. }
  unfold mbind at 1, M_bind at 1. rewrite new_child_free.
  2:{ simpl. intros H. repeat (apply elem_of_cons in H as [H|H]; [discriminate|]).
      by apply elem_of_nil in H. }
  unfold mbind at 1, M_bind at 1. rewrite new_child_free.
  2:{ simpl. intros H.
      repeat (apply elem_of_cons in H as [H|H]; [by eapply Hup in H|]).
      by apply elem_of_nil in H. }
  unfold mbind at 1, M_bind at 1, modify at 1. cbn [fst snd].
  unfold mbind at 1, M_bind at 1. rewrite new_child_free.
  2:{ simpl. intros H.
      repeat (apply elem_of_cons in H as [H|H];
              [first [discriminate | symmetry in H; by eapply Hup in H]|]).
      by apply elem_of_nil in H. }
  unfold mbind at 1, M_bind at 1, gets at 1. cbn [fst snd].
  cbn [Function.set_function Function.set_children Function.permissions Function.children
       Function.app Function.function].
  unfold Map_keys. rewrite for_of_fmap.
  rewrite (for_of_ext _ _ (λ kv, for_of kv.2 (λ r,
             Function.new_child (policyId kv.1)
               (Function.iamPolicy a functionName (ref_obj r))))).
  2:{ intros [key s] Hin. cbn [fst snd]. rewrite (Map_get_elem _ key s); [|done|done]. reflexivity. }
  rewrite (apply_permissions a functionName); [reflexivity | done | done |].
  intros key Hkey. simpl. intros H.
  repeat (apply elem_of_cons in H as [H|H];
          [first [discriminate | symmetry in H; by eapply Hup in H]|]).
  by apply elem_of_nil in H.
Qed.

(** ** Further properties of the table client *)

Section ClientMore.
Variable parse : string → Result Obj.
Variable valid : Obj → Obj → Result unit.
Variable this : TableClient.t.

Abbreviation validate := (TableClient.validate parse valid this).
Abbreviation insert := (TableClient.insert parse valid this).
Abbreviation update := (TableClient.update parse valid this).
Abbreviation upsert := (TableClient.upsert parse valid this).

(** X12.  [upsert] is [update] on a key that exists and [insert] on a key
    that does not, errors included: whatever the row, it returns what the
    other would return and leaves the table the other would leave. *)
Theorem upsert_is_update_or_insert (key : string) (row : Obj) (tbl : Bigtable.Table) :
  upsert key row tbl
  = if bool_decide (is_Some (tbl !! key)) then update key row tbl else insert key row tbl.
Proof.
  destruct (validate_cases parse valid this row tbl) as [Hv|[e Hv]].
  - by apply upsert_dispatch.
  - rewrite (upsert_invalid _ _ _ _ _ e) by done.
    case_bool_decide; [by rewrite (update_invalid _ _ _ _ _ e) | by rewrite (insert_invalid _ _ _ _ _ e)].
Qed.

Lemma save_loop_Ok (key : string) (row : Obj) (tbl : Bigtable.Table) :
  ∃ tbl', for_of row (λ '(column, value),
            Bigtable.row_save key (split_head ":" column) value) tbl = (Ok tt, tbl').
Proof.
  revert tbl. induction row as [|[c v] row IH]; intros tbl; simpl; [by eexists|].
  unfold mbind, M_bind, Bigtable.row_save, modify. apply IH.
Qed.

(** X13.  A write that fails leaves the table as it was: [insert],
    [update], [upsert] and [delete] make their checks before the first
    write to the backend. *)
Theorem failed_write_changes_nothing (key : string) (row : Obj) (e : exn)
    (tbl tbl' : Bigtable.Table) :
  (insert key row tbl = (Throw e, tbl') → tbl' = tbl)
  ∧ (update key row tbl = (Throw e, tbl') → tbl' = tbl)
  ∧ (upsert key row tbl = (Throw e, tbl') → tbl' = tbl)
  ∧ (TableClient.delete key tbl = (Throw e, tbl') → tbl' = tbl).
Proof.
  assert (insert key row tbl = (Throw e, tbl') → tbl' = tbl) as Hins.
  { unfold TableClient.insert, mbind, M_bind.
    destruct (validate_cases parse valid this row tbl) as [Hv|[e' Hv]]; rewrite Hv.
    - unfold Bigtable.row_exists, gets. case_bool_decide; [by intros [= _ <-]|].
      unfold Bigtable.table_insert.
      destruct (obj_get "key" _) as [[| | |k| |]|];
        first [by intros [= _ <-] | unfold modify; discriminate].
    - by intros [= _ <-]. }
  assert (update key row tbl = (Throw e, tbl') → tbl' = tbl) as Hupd.
  { unfold TableClient.update, mbind, M_bind.
    destruct (validate_cases parse valid this row tbl) as [Hv|[e' Hv]]; rewrite Hv.
    - unfold Bigtable.row_exists, gets. case_bool_decide; simpl; [|by intros [= _ <-]].
      destruct (save_loop_Ok key row tbl) as [t Ht]. rewrite Ht. discriminate.
    - by intros [= _ <-]. }
  split_and!; [done | done | |].
  - destruct (validate_cases parse valid this row tbl) as [Hv|[e' Hv]].
    + rewrite upsert_dispatch by done. by case_bool_decide.
    + rewrite (upsert_invalid _ _ _ _ _ e') by done. by intros [= _ <-].
  - unfold TableClient.delete, mbind, M_bind, Bigtable.row_exists, gets.
    case_bool_decide; simpl; [|by intros [= _ <-]].
    unfold Bigtable.row_delete, modify. discriminate.
Qed.
End ClientMore.

Section ClientRoundTrips.
Variable parse : string → Result Obj.
Variable valid : Obj → Obj → Result unit.
Variable this : TableClient.t.

Abbreviation validate' := (TableClient.validate parse valid this).
Abbreviation insert' := (TableClient.insert parse valid this).
Abbreviation update' := (TableClient.update parse valid this).
Abbreviation upsert' := (TableClient.upsert parse valid this).

(** X14.  [insert] and [tryGet] round trip, and [delete] undoes
    [insert]: after an [insert] that succeeded of a row without a field
    [key], the key holds the row, field for field in the order given; a
    [tryGet] of the key returns the row, when [Json.parse] reads back the
    text [Json.stringify] makes of it; and a [delete] of the key brings
    the table back to what it was. *)
Theorem insert_tryGet_delete (Json_parse : Json → Result Json)
    (Json_stringify : Json → string) (key : string) (row : Obj)
    (tbl tbl1 : Bigtable.Table) :
  "key" ∉ row.*1 → NoDup row.*1 →
  insert' key row tbl = (Ok tt, tbl1) →
  tbl1 !! key = Some row
  ∧ (Json_parse (JString (Json_stringify (JObject row))) = Ok (JObject row) →
     TableClient.tryGet Json_parse Json_stringify key tbl1
     = (Ok (Some (JObject row)), tbl1))
  ∧ TableClient.delete key tbl1 = (Ok tt, tbl).
Proof.
  intros Hkey Hnd Hins.
  destruct (insert_Ok_inv _ _ _ _ _ _ _ Hins) as [Hv Hnew].
  rewrite insert_new in Hins by done. injection Hins as <-.
  rewrite obj_assign_nil_NoDup by done.
  split_and!.
  - apply lookup_insert_eq.
  - intros Hback.
    rewrite (tryGet_existing Json_parse Json_stringify key row (Ok (JObject row)));
      [done | apply lookup_insert_eq | done].
  - unfold TableClient.delete, mbind, M_bind, Bigtable.row_exists, gets.
    rewrite bool_decide_eq_true_2 by (rewrite lookup_insert_eq; eauto). simpl.
    unfold Bigtable.row_delete, modify. rewrite delete_insert_eq.
    by rewrite delete_id.
Qed.

(** X15.  [update] and [delete] of a key that does not exist fail with
    the error of a missing row and change nothing; [update] does so for a
    row that validates. *)
Theorem update_delete_missing (cols : Obj) (key : string) (row : Obj) (tbl : Bigtable.Table) :
  tbl !! key = None →
  TableClient.delete key tbl = (Throw (TableClient.doesNotExist key), tbl)
  ∧ (parse (TableClient.columns this) = Ok cols → valid row cols = Ok tt →
       update' key row tbl = (Throw (TableClient.doesNotExist key), tbl)).
Proof.
  intros Hnew.
  assert (¬ is_Some (tbl !! key)) as Hno by (rewrite Hnew; by intros []).
  split.
  - unfold TableClient.delete, mbind, M_bind, Bigtable.row_exists, gets.
    by rewrite bool_decide_eq_false_2.
  - intros HP HV. unfold TableClient.update, mbind, M_bind.
    rewrite (validate_Ok _ _ _ _ cols) by done.
    unfold Bigtable.row_exists, gets. by rewrite bool_decide_eq_false_2.
Qed.

Lemma family_value_acc (f : string) (row : Obj) (acc : option Json) :
  foldl (λ acc p, if String.eqb (split_head ":" p.1) f then Some p.2 else acc) acc row
  = match family_value f row with Some v => Some v | None => acc end.
Proof.
  revert acc. unfold family_value.
  induction row as [|[c v] row IH]; intros acc; simpl; [done|].
  rewrite (IH (if String.eqb (split_head ":" c) f then Some v else acc)).
  rewrite (IH (if String.eqb (split_head ":" c) f then Some v else None)).
  destruct (foldl _ None row); [done|]. by destruct (String.eqb _ f).
Qed.

Lemma obj_get_saved (f : string) (row data : Obj) :
  obj_get f (saved row data)
  = match family_value f row with Some v => Some v | None => obj_get f data end.
Proof.
  revert data. induction row as [|[c v] row IH]; intros data; [done|].
  unfold saved in *. simpl. rewrite IH.
  unfold family_value at 2. simpl. rewrite family_value_acc.
  destruct (family_value f row) as [w|]; [reflexivity|].
  rewrite obj_get_set.
  destruct (String.eqb_spec (split_head ":" c) f) as [<-|Hne].
  - by rewrite decide_True.
  - by rewrite decide_False by congruence.
Qed.

(** X16.  What [update] writes.  On a key that exists and for a row that
    validates, [update] succeeds and touches that row alone; afterwards a
    field [f] of the row holds the value of the last field given whose
    name, cut at the first colon, is [f], and keeps its value when there is
    none.  So a field given as [a:b] is stored as [a], and of two fields
    given as [a:b] and [a:c] the second wins. *)
Theorem update_writes_families (cols : Obj) (key : string) (row data : Obj)
    (tbl : Bigtable.Table) :
  parse (TableClient.columns this) = Ok cols → valid row cols = Ok tt →
  tbl !! key = Some data →
  ∃ data',
    update' key row tbl = (Ok tt, <[key := data']> tbl)
    ∧ ∀ f, obj_get f data'
           = match family_value f row with Some v => Some v | None => obj_get f data end.
Proof.
  intros HP HV Hd. exists (saved row data). split.
  - apply update_existing; [by eapply validate_Ok | done].
  - intros f. apply obj_get_saved.
Qed.
End ClientRoundTrips.

Section ReadsMore.
Variable Json_parse : Json → Result Json.
Variable Json_stringify : Json → string.

(** X17.  [get] and [tryGet] do not read a row alike.  On a key that
    exists [get] returns what [Json.parse] makes of the data object of the
    row, [tryGet] what it makes of the text [Json.stringify] gives for
    that object.  So where [Json.parse] refuses the object and reads the
    text back, [get] fails on the row that [tryGet] returns.  Neither
    changes the table. *)
Theorem get_parses_object_tryGet_text (key : string) (data : Obj) (e : exn)
    (tbl : Bigtable.Table) :
  tbl !! key = Some data →
  TableClient.get Json_parse key tbl = (Json_parse (JObject data), tbl)
  ∧ (Json_parse (JObject data) = Throw e →
     Json_parse (JString (Json_stringify (JObject data))) = Ok (JObject data) →
     TableClient.get Json_parse key tbl = (Throw e, tbl)
     ∧ TableClient.tryGet Json_parse Json_stringify key tbl
       = (Ok (Some (JObject data)), tbl)).
Proof.
  intros Hd. split; [by apply get_existing|].
  intros Hobj Htext. split.
  - rewrite (get_existing _ _ data) by done. by rewrite Hobj.
  - by rewrite (tryGet_existing _ _ key data (Ok (JObject data))).
Qed.

Lemma parse_each_state (rows : list Obj) (tbl : Bigtable.Table) :
  (TableClient.parse_each Json_parse rows tbl).2 = tbl.
Proof.
  induction rows as [|d rows IH]; simpl; [done|].
  unfold mbind, M_bind, lift. destruct (Json_parse (JObject d)); simpl; [|done].
  destruct (TableClient.parse_each Json_parse rows tbl) as [[js|e] t] eqn:E;
    simpl in *; by subst.
Qed.

Lemma parse_each_refused (rows : list Obj) (e : exn) (tbl : Bigtable.Table) :
  (∀ data, Json_parse (JObject data) = Throw e) → rows ≠ [] →
  TableClient.parse_each Json_parse rows tbl = (Throw e, tbl).
Proof.
  intros Href Hne. destruct rows as [|d rows]; [done|].
  simpl. unfold mbind, M_bind, lift. by rewrite Href.
Qed.

Lemma parse_each_read (rows : list Obj) (tbl : Bigtable.Table) :
  (∀ data, data ∈ rows → Json_parse (JObject data) = Ok (JObject data)) →
  TableClient.parse_each Json_parse rows tbl = (Ok (JObject <$> rows), tbl).
Proof.
  induction rows as [|d rows IH]; intros Hread; simpl; [done|].
  unfold mbind, M_bind, lift. rewrite Hread by left.
  rewrite IH; [done|]. intros data Hin. apply Hread. by right.
Qed.

(** X18.  [list] does not change the table and hands [Json.parse] the
    data object of each row, as [get] does.  An empty table gives the
    empty list.  Where [Json.parse] refuses data objects, [list] fails on
    every table that holds a row.  Where it returns them as they are,
    [list] returns one entry for each key, the rows of the table. *)
Theorem list_rows (tbl : Bigtable.Table) :
  (TableClient.list_ Json_parse tbl).2 = tbl
  ∧ TableClient.list_ Json_parse ∅ = (Ok [], ∅)
  ∧ (∀ e, (∀ data, Json_parse (JObject data) = Throw e) → tbl ≠ ∅ →
       TableClient.list_ Json_parse tbl = (Throw e, tbl))
  ∧ ((∀ data, Json_parse (JObject data) = Ok (JObject data)) →
       ∃ rows, TableClient.list_ Json_parse tbl = (Ok rows, tbl)
               ∧ length rows = size tbl
               ∧ ∀ v, v ∈ rows ↔ ∃ key data, tbl !! key = Some data ∧ v = JObject data).
Proof.
  unfold TableClient.list_, mbind, M_bind, Bigtable.getRows_data, gets. cbn [fst snd].
  split_and!.
  - apply parse_each_state.
  - by rewrite map_to_list_empty.
  - intros e Href Hne. apply parse_each_refused; [done|].
    intros Hnil. apply Hne. apply fmap_nil_inv in Hnil. by apply map_to_list_empty_iff.
  - intros Hread. rewrite parse_each_read by done.
    eexists. split_and!; [reflexivity | |].
    + rewrite !length_fmap. apply length_map_to_list.
    + intros v. rewrite list_elem_of_fmap. split.
      * intros (d & -> & Hd). apply list_elem_of_fmap in Hd as ([k d'] & -> & Hin).
        apply elem_of_map_to_list in Hin. by exists k, d'.
      * intros (key & d & Hd & ->). exists d. split; [done|].
        apply list_elem_of_fmap. exists (key, d). split; [done|].
        by apply elem_of_map_to_list.
Qed.
End ReadsMore.

Section ClientFrames.
Variable parse : string → Result Obj.
Variable valid : Obj → Obj → Result unit.
Variable this : TableClient.t.

Abbreviation insert'' := (TableClient.insert parse valid this).
Abbreviation update'' := (TableClient.update parse valid this).
Abbreviation upsert'' := (TableClient.upsert parse valid this).

Lemma insert_other_rows (key other : string) (row : Obj) (tbl : Bigtable.Table) :
  "key" ∉ row.*1 → other ≠ key → (insert'' key row tbl).2 !! other = tbl !! other.
Proof.
  intros Hkey Hne.
  destruct (validate_cases parse valid this row tbl) as [Hv|[e Hv]].
  - destruct (tbl !! key) as [d|] eqn:E.
    + by rewrite insert_existing by (rewrite ?E; eauto).
    + rewrite insert_new by done. simpl. by rewrite lookup_insert_ne.
  - by rewrite (insert_invalid _ _ _ _ _ e).
Qed.

Lemma update_other_rows (key other : string) (row : Obj) (tbl : Bigtable.Table) :
  other ≠ key → (update'' key row tbl).2 !! other = tbl !! other.
Proof.
  intros Hne.
  destruct (validate_cases parse valid this row tbl) as [Hv|[e Hv]].
  - destruct (tbl !! key) as [d|] eqn:E.
    + rewrite (update_existing _ _ _ _ _ d) by done. simpl. by rewrite lookup_insert_ne.
    + unfold TableClient.update, mbind, M_bind. rewrite Hv.
      unfold Bigtable.row_exists, gets. rewrite bool_decide_eq_false_2; [done|].
      rewrite E. by intros [].
  - by rewrite (update_invalid _ _ _ _ _ e).
Qed.

(** X19.  A write to one key leaves every other row as it is, whether it
    succeeds or fails: [update] and [delete] always, [insert] and [upsert]
    for a row without a field [key]. *)
Theorem writes_touch_one_row (key other : string) (row : Obj) (tbl : Bigtable.Table) :
  other ≠ key →
  (update'' key row tbl).2 !! other = tbl !! other
  ∧ (TableClient.delete key tbl).2 !! other = tbl !! other
  ∧ ("key" ∉ row.*1 →
       (insert'' key row tbl).2 !! other = tbl !! other
       ∧ (upsert'' key row tbl).2 !! other = tbl !! other).
Proof.
  intros Hne. split_and!.
  - by apply update_other_rows.
  - unfold TableClient.delete, mbind, M_bind, Bigtable.row_exists, gets.
    case_bool_decide; simpl; [|done].
    by rewrite lookup_delete_ne.
  - intros Hkey. split; [by apply insert_other_rows|].
    destruct (validate_cases parse valid this row tbl) as [Hv|[e Hv]].
    + rewrite upsert_dispatch by done.
      case_bool_decide; [by apply update_other_rows | by apply insert_other_rows].
    + by rewrite (upsert_invalid _ _ _ _ _ e).
Qed.

(** X20.  When the text of the column schema does not parse, every write
    fails with the error of the parser and leaves the table as it is,
    whatever the key and the row. *)
Theorem unparsable_schema_blocks_writes (e : exn) (key : string) (row : Obj)
    (tbl : Bigtable.Table) :
  parse (TableClient.columns this) = Throw e →
  insert'' key row tbl = (Throw e, tbl)
  ∧ update'' key row tbl = (Throw e, tbl)
  ∧ upsert'' key row tbl = (Throw e, tbl).
Proof.
  intros HP.
  assert (TableClient.validate parse valid this row tbl = (Throw e, tbl)) as Hv.
  { unfold TableClient.validate, mbind, M_bind, lift. by rewrite HP. }
  split_and!; [by apply insert_invalid | by apply update_invalid | by apply upsert_invalid].
Qed.

Lemma obj_remove_set_eq (f : string) (v : Json) (o : Obj) :
  obj_remove f (obj_set f v o) = obj_remove f o.
Proof.
  induction o as [|[h w] o IH]; simpl.
  - by rewrite String.eqb_refl.
  - destruct (String.eqb_spec f h) as [<-|E]; simpl.
    + by rewrite String.eqb_refl.
    + destruct (String.eqb_spec h f) as [->|_]; [done|]. by rewrite IH.
Qed.

Lemma obj_remove_assign_both (f : string) (base src : Obj) :
  obj_remove f (obj_assign base src) = obj_assign (obj_remove f base) (obj_remove f src).
Proof.
  revert base. induction src as [|[g v] src IH]; intros base; [done|].
  unfold obj_assign in *. simpl. rewrite IH.
  destruct (String.eqb_spec g f) as [->|Hne].
  - by rewrite obj_remove_set_eq.
  - simpl. by rewrite obj_remove_set_ne.
Qed.

Lemma obj_remove_fields (f : string) (o : Obj) : (obj_remove f o).*1 `sublist_of` o.*1.
Proof.
  induction o as [|[h w] o IH]; simpl; [done|].
  destruct (String.eqb h f); simpl; [by apply sublist_cons | by apply sublist_skip].
Qed.

(** X21.  A field [key] of the row takes the place of the key in
    [insert].  For a row that validates and a key that does not exist,
    when the row has a field [key] that holds a string, [insert] succeeds
    and writes the other fields of the row onto the row of that name,
    which may exist already; when the name is not the key, the key is as
    absent after the call as before. *)
Theorem insert_key_field_redirects (cols : Obj) (key target : string) (row : Obj)
    (tbl : Bigtable.Table) :
  parse (TableClient.columns this) = Ok cols → valid row cols = Ok tt →
  tbl !! key = None → NoDup row.*1 →
  obj_get "key" row = Some (JString target) →
  insert'' key row tbl
  = (Ok tt, <[target := obj_assign (default [] (tbl !! target)) (obj_remove "key" row)]> tbl)
  ∧ (target ≠ key → (insert'' key row tbl).2 !! key = None).
Proof.
  intros HP HV Hnew Hnd Hk.
  assert (insert'' key row tbl
          = (Ok tt, <[target := obj_assign (default [] (tbl !! target))
                                  (obj_remove "key" row)]> tbl)) as Hins.
  { unfold TableClient.insert, mbind, M_bind.
    rewrite (validate_Ok _ _ _ _ cols) by done.
    unfold Bigtable.row_exists, gets.
    rewrite bool_decide_eq_false_2 by (rewrite Hnew; by intros []).
    unfold Bigtable.table_insert.
    rewrite obj_get_assign by done. rewrite Hk.
    unfold modify. rewrite obj_remove_assign_both. simpl.
    rewrite (obj_assign_nil_NoDup (obj_remove "key" row)); [done|].
    eapply sublist_NoDup; [exact Hnd | apply obj_remove_fields]. }
  split; [done|]. intros Hne. rewrite Hins. simpl. by rewrite lookup_insert_ne.
Qed.
End ClientFrames.

(** ** The further properties on the example application *)

Lemma addPermission_second_object_refused_witness :
  let node := Table.node Example.users in
  let f1 := (Function.addPermission node (Example.viewer 0) Example.handler_built).2 in
  (Function.function Example.handler_built = Some "handler"
   ∧ Set_has (granted Example.handler_built node) (Example.viewer 0) = false
   ∧ Function.addPermission node (Example.viewer 0) Example.handler_built = (Ok tt, f1)
   ∧ Set_has (granted f1 node) (Example.user 1) = false)
  ∧ Function.addPermission node (Example.user 1) f1
    = (Throw (DuplicateConstruct (policyId (uniqueId node))), f1).
Proof.
  intros node f1.
  assert (Function.addPermission node (Example.viewer 0) Example.handler_built = (Ok tt, f1))
    as H1 by (vm_compute; reflexivity).
  assert (Set_has (granted f1 node) (Example.user 1) = false) as H2
    by (vm_compute; reflexivity).
  split; [by split_and!|].
  exact (addPermission_second_object_refused node (Example.viewer 0) (Example.user 1)
           Example.handler_built f1 "handler" eq_refl eq_refl H1 H2).
Defined.

Lemma addPermission_emits_when_built_witness :
  let node := Table.node Example.users in
  Set_has (granted Example.handler_unbuilt node) (Example.viewer 0) = false
  ∧ (Function.addPermission node (Example.viewer 0) Example.handler_unbuilt).1 = Ok tt
  ∧ Function.children
      (Function.addPermission node (Example.viewer 0) Example.handler_unbuilt).2 = []
  ∧ (policyId (uniqueId node) ∉ (Function.children Example.handler_built).*1)
  ∧ length (Function.children
              (Function.addPermission node (Example.viewer 0) Example.handler_built).2) = 6.
Proof.
  intros node.
  destruct (addPermission_emits_when_built node (Example.viewer 0) Example.handler_unbuilt
              eq_refl) as [Hunbuilt _].
  destruct (Hunbuilt eq_refl) as (Hok & Hkids & _).
  assert (policyId (uniqueId node) ∉ (Function.children Example.handler_built).*1) as Hfree.
  { apply (bool_decide_unpack _). vm_compute. exact I. }
  destruct (addPermission_emits_when_built node (Example.viewer 0) Example.handler_built
              eq_refl) as [_ Hbuilt].
  destruct (Hbuilt "handler" eq_refl Hfree) as (_ & Hkids' & _).
  split_and!; [reflexivity | exact Hok | exact Hkids | exact Hfree |].
  rewrite Hkids'. vm_compute. reflexivity.
Defined.

Lemma constructor_applies_permissions_witness :
  let f := Function.set_permissions
             [(node_addr (Table.node Example2.orders), [Example.viewer 0]);
              (node_addr (Table.node Example.users), [Example.user 1])]
             Example.handler_unbuilt in
  (Function.children f = []
   ∧ lower_alnum "handler" = true
   ∧ NoDup (default [] (Function.permissions f)).*1
   ∧ Forall (λ kv, (length kv.2 ≤ 1)%nat) (default [] (Function.permissions f)))
  ∧ ∃ f', Function.constructor_body "handler" "handler" "/tmp/bundle" ".zip" f = (Ok tt, f')
          ∧ length (Function.children f') = 7
          ∧ Function.function f' = Some "handler".
Proof.
  intros f.
  assert (NoDup (default [] (Function.permissions f)).*1) as Hnd.
  { apply (bool_decide_unpack _). vm_compute. exact I. }
  assert (Forall (λ kv, (length kv.2 ≤ 1)%nat) (default [] (Function.permissions f))) as Hone.
  { repeat constructor. }
  split; [by split_and!|].
  eexists. split_and!.
  - exact (constructor_applies_permissions "handler" "handler" "/tmp/bundle" ".zip" f
             eq_refl eq_refl Hnd Hone).
  - reflexivity.
  - reflexivity.
Defined.

Lemma failed_write_changes_nothing_witness :
  Example.insert Example.narrow "row1" [("col", JString "b")] Example.one_row
  = (Throw (TableClient.alreadyExists "row1"), Example.one_row)
  ∧ Example.one_row = Example.one_row.
Proof.
  assert (Example.insert Example.narrow "row1" [("col", JString "b")] Example.one_row
          = (Throw (TableClient.alreadyExists "row1"), Example.one_row)) as H
    by (vm_compute; reflexivity).
  split; [exact H|].
  exact (proj1 (failed_write_changes_nothing Example.JSON_parse validateRow Example.narrow
                  "row1" [("col", JString "b")] (TableClient.alreadyExists "row1")
                  Example.one_row Example.one_row) H).
Defined.

Lemma insert_tryGet_delete_witness :
  (("key" ∉ [("col", JString "b")].*1) ∧ NoDup [("col", JString "b")].*1
   ∧ Example.insert Example.narrow "row2" [("col", JString "b")] Example.one_row
     = (Ok tt, Example2.two_rows))
  ∧ Example2.two_rows !! "row2" = Some [("col", JString "b")]
  ∧ Example.tryGet "row2" Example2.two_rows
    = (Ok (Some (JObject [("col", JString "b")])), Example2.two_rows)
  ∧ TableClient.delete "row2" Example2.two_rows = (Ok tt, Example.one_row).
Proof.
  assert ("key" ∉ [("col", JString "b")].*1) as Hkey.
  { apply (bool_decide_unpack _). vm_compute. exact I. }
  assert (NoDup [("col", JString "b")].*1) as Hnd.
  { apply (bool_decide_unpack _). vm_compute. exact I. }
  assert (Example.insert Example.narrow "row2" [("col", JString "b")] Example.one_row
          = (Ok tt, Example2.two_rows)) as Hins by (vm_compute; reflexivity).
  split; [by split_and!|].
  destruct (insert_tryGet_delete Example.JSON_parse validateRow Example.narrow
              Example.Json_parse Example.Json_stringify "row2"
              [("col", JString "b")] Example.one_row Example2.two_rows Hkey Hnd Hins)
    as (Hrow & Hread & Hdel).
  split_and!; [exact Hrow | | exact Hdel].
  apply Hread. vm_compute. reflexivity.
Defined.

Lemma get_parses_object_tryGet_text_witness :
  Example.one_row !! "row1" = Some [("col", JString "a")]
  ∧ Example.get "row1" Example.one_row
    = (Throw (SyntaxError "[object Object]"), Example.one_row)
  ∧ Example.tryGet "row1" Example.one_row
    = (Ok (Some (JObject [("col", JString "a")])), Example.one_row).
Proof.
  assert (Example.one_row !! "row1" = Some [("col", JString "a")]) as Hd
    by (vm_compute; reflexivity).
  split; [exact Hd|].
  destruct (get_parses_object_tryGet_text Example.Json_parse Example.Json_stringify "row1"
              [("col", JString "a")] (SyntaxError "[object Object]") Example.one_row Hd)
    as [_ Hboth].
  apply Hboth; vm_compute; reflexivity.
Defined.

Lemma list_rows_witness :
  Example.one_row ≠ ∅
  ∧ TableClient.list_ Example.Json_parse Example.one_row
    = (Throw (SyntaxError "[object Object]"), Example.one_row)
  ∧ TableClient.list_ Example.Json_parse ∅ = (Ok [], ∅).
Proof.
  assert (Example.one_row ≠ ∅) as Hne.
  { intros Heq. apply (f_equal (λ t : Bigtable.Table, t !! "row1")) in Heq.
    vm_compute in Heq. discriminate. }
  split; [exact Hne|].
  destruct (list_rows Example.Json_parse Example.one_row) as (_ & Hempty & Hrefused & _).
  split; [|exact Hempty].
  apply Hrefused; [|exact Hne]. intros data. reflexivity.
Defined.

Lemma update_delete_missing_witness :
  (Example.one_row !! "row2" = None
   ∧ Example.JSON_parse (TableClient.columns Example.narrow) = Ok Example.schema_col
   ∧ validateRow [("col", JString "b")] Example.schema_col = Ok tt)
  ∧ TableClient.delete "row2" Example.one_row
    = (Throw (TableClient.doesNotExist "row2"), Example.one_row)
  ∧ Example.update Example.narrow "row2" [("col", JString "b")] Example.one_row
    = (Throw (TableClient.doesNotExist "row2"), Example.one_row).
Proof.
  assert (Example.one_row !! "row2" = None) as Hnew by (vm_compute; reflexivity).
  split; [by split_and!|].
  destruct (update_delete_missing Example.JSON_parse validateRow Example.narrow
              Example.schema_col "row2" [("col", JString "b")] Example.one_row Hnew)
    as [Hdel Hupd].
  split; [exact Hdel | exact (Hupd eq_refl eq_refl)].
Defined.

Lemma update_writes_families_witness :
  let row := [("a:b", JNumber 1); ("col", JString "z")] in
  (Example.JSON_parse (TableClient.columns Example.wide) = Ok Example.schema_wide
   ∧ validateRow row Example.schema_wide = Ok tt
   ∧ Example.one_row !! "row1" = Some [("col", JString "a")])
  ∧ ∃ data', Example.update Example.wide "row1" row Example.one_row
             = (Ok tt, <["row1" := data']> Example.one_row)
             ∧ obj_get "a" data' = Some (JNumber 1)
             ∧ obj_get "a:b" data' = None
             ∧ obj_get "col" data' = Some (JString "z").
Proof.
  intros row.
  assert (Example.one_row !! "row1" = Some [("col", JString "a")]) as Hd
    by (vm_compute; reflexivity).
  split; [by split_and!|].
  destruct (update_writes_families Example.JSON_parse validateRow Example.wide
              Example.schema_wide "row1" row [("col", JString "a")] Example.one_row
              eq_refl eq_refl Hd) as (data' & Hupd & Hfields).
  exists data'. split_and!; [exact Hupd | | |]; rewrite Hfields; reflexivity.
Defined.

Lemma writes_touch_one_row_witness :
  "row2" ≠ "row1"
  ∧ (Example.update Example.narrow "row1" [("col", JString "z")] Example2.two_rows).2 !! "row2"
    = Some [("col", JString "b")]
  ∧ (TableClient.delete "row1" Example2.two_rows).2 !! "row2" = Some [("col", JString "b")].
Proof.
  assert ("row2" ≠ "row1") as Hne by discriminate.
  split; [exact Hne|].
  destruct (writes_touch_one_row Example.JSON_parse validateRow Example.narrow
              "row1" "row2" [("col", JString "z")] Example2.two_rows Hne)
    as (Hupd & Hdel & _).
  split.
  - unfold Example.update. rewrite Hupd. vm_compute. reflexivity.
  - rewrite Hdel. vm_compute. reflexivity.
Defined.

Lemma unparsable_schema_blocks_writes_witness :
  let broken := Example.client "{col:" in
  Example.JSON_parse (TableClient.columns broken) = Throw (SyntaxError "{col:")
  ∧ Example.insert broken "row1" [("col", JString "a")] ∅ = (Throw (SyntaxError "{col:"), ∅)
  ∧ Example.update broken "row1" [("col", JString "a")] ∅ = (Throw (SyntaxError "{col:"), ∅)
  ∧ Example.upsert broken "row1" [("col", JString "a")] ∅ = (Throw (SyntaxError "{col:"), ∅).
Proof.
  intros broken. split; [reflexivity|].
  exact (unparsable_schema_blocks_writes Example.JSON_parse validateRow broken
           (SyntaxError "{col:") "row1" [("col", JString "a")] ∅ eq_refl).
Defined.

Lemma insert_key_field_redirects_witness :
  let row := [("key", JString "other"); ("col", JString "a")] in
  (Example.JSON_parse (TableClient.columns Example.wide) = Ok Example.schema_wide
   ∧ validateRow row Example.schema_wide = Ok tt
   ∧ (∅ : Bigtable.Table) !! "row1" = None
   ∧ NoDup row.*1
   ∧ obj_get "key" row = Some (JString "other"))
  ∧ Example.insert Example.wide "row1" row ∅
    = (Ok tt, {[ "other" := [("col", JString "a")] ]})
  ∧ (Example.insert Example.wide "row1" row ∅).2 !! "row1" = None.
Proof.
  intros row.
  assert (NoDup row.*1) as Hnd.
  { apply (bool_decide_unpack _). vm_compute. exact I. }
  split; [split_and!; [reflexivity | reflexivity | apply lookup_empty | exact Hnd | reflexivity]|].
  destruct (insert_key_field_redirects Example.JSON_parse validateRow Example.wide
              Example.schema_wide "row1" "other" row ∅ eq_refl eq_refl (lookup_empty _) Hnd
              eq_refl)
    as [Hins Habsent].
  split; [exact Hins|]. apply Habsent. discriminate.
Defined.
